(** * griptape drivers: the FalkorDB graph store driver and the
    retrying audio transcription driver

    A shallow embedding of
    [griptape/drivers/graph/falkordb_graph_store_driver.py] and
    [griptape/drivers/audio_transcription/base_audio_transcription_driver.py].

    Python [str] values are embedded as [string]; the embedding covers
    the ASCII fragment (code points 0..127), on which [str.upper] only
    moves the letters a..z.  Python exceptions are values of [Exn]; a
    method that may raise runs in a state-and-error monad whose state
    survives a raise, as the effects performed before a Python [raise]
    do.

    The graph store driver is written once, over any backing store
    that answers its statements ([Backend]); the module [FalkorDB]
    gives the statements their meaning on a property graph.  Of the
    graph store driver the methods [__init__], [index_exists], [get],
    [get_rel_map], [query], [upsert_triplet], [delete], [delete_node],
    [upsert_node], [refresh_schema], [get_schema], [load_entry] and
    [load_entries] are embedded; [client] and [create_connection],
    which only hand out or build the connection object, are left out.

    The file has three parts: the embedding, the vocabulary of the
    properties, and the properties with their proofs. *)

From Stdlib Require Import String Ascii List Bool Arith ZArith Lia.
Import ListNotations.
Open Scope string_scope.
Open Scope nat_scope.
Open Scope list_scope.

(* ================================================================== *)
(** ** Python string methods used by the drivers *)
(* ================================================================== *)

Module PyStr.

(** [c.upper()] on one ASCII character. *)
Definition is_lower (c : ascii) : bool :=
  let n := nat_of_ascii c in ((97 <=? n) && (n <=? 122))%nat.

Definition upper_char (c : ascii) : ascii :=
  if is_lower c then ascii_of_nat (nat_of_ascii c - 32) else c.

(** [s.upper()]. *)
Fixpoint upper (s : string) : string :=
  match s with
  | EmptyString => EmptyString
  | String c s' => String (upper_char c) (upper s')
  end.

(** [s.replace(old, new)] for a non-empty [old]: the occurrences of
    [old] are replaced left to right, without overlap.  [skip] counts
    the characters of the occurrence just replaced that are still to
    be dropped. *)
Fixpoint replace_go (old new : string) (skip : nat) (s : string) : string :=
  match s with
  | EmptyString => EmptyString
  | String c s' =>
      match skip with
      | S k => replace_go old new k s'
      | O =>
          if prefix old s
          then (new ++ replace_go old new (String.length old - 1) s')%string
          else String c (replace_go old new 0 s')
      end
  end.

(** [s.replace(old, new)] with an empty [old] puts [new] before every character and at
    the end. *)
Fixpoint intersperse (new : string) (s : string) : string :=
  match s with
  | EmptyString => new
  | String c s' => (new ++ String c (intersperse new s'))%string
  end.

Definition replace (old new s : string) : string :=
  match old with
  | EmptyString => intersperse new s
  | _ => replace_go old new 0 s
  end.

(** [sub in s]. *)
Fixpoint contains (sub s : string) : bool :=
  prefix sub s ||
  match s with
  | EmptyString => false
  | String _ s' => contains sub s'
  end.

(** Membership of a character, for stating what a normalised label
    is free of. *)
Fixpoint has_char (p : ascii -> bool) (s : string) : bool :=
  match s with
  | EmptyString => false
  | String c s' => p c || has_char p s'
  end.

End PyStr.

(* ================================================================== *)
(** ** Exceptions and the driver monad *)
(* ================================================================== *)

(** The exceptions the drivers see: [redis.exceptions.ResponseError]
    with its message, any other exception with its class name and
    message, and the plain [Exception] raised by the drivers
    themselves. *)
Inductive Exn : Type :=
| ResponseError (msg : string)
| OtherError (cls msg : string)
| PlainException (msg : string).

(** [str(e)]. *)
Definition exn_str (e : Exn) : string :=
  match e with
  | ResponseError m => m
  | OtherError _ m => m
  | PlainException m => m
  end.

(** A computation over the world [W] that returns or raises; the world
    it leaves behind is kept in both cases. *)
Definition M (W A : Type) : Type := W -> (Exn + A) * W.

Section Monad.
Context {W : Type}.
Local Abbreviation M := (M W).

Definition ret {A} (a : A) : M A := fun w => (inr a, w).

Definition raise {A} (e : Exn) : M A := fun w => (inl e, w).

Definition bind {A B} (m : M A) (k : A -> M B) : M B :=
  fun w =>
    match m w with
    | (inr a, w') => k a w'
    | (inl e, w') => (inl e, w')
    end.

(** [try: m  except ... as e: h e]. *)
Definition try_except {A} (m : M A) (h : Exn -> M A) : M A :=
  fun w =>
    match m w with
    | (inr a, w') => (inr a, w')
    | (inl e, w') => h e w'
    end.

End Monad.

Declare Scope py_scope.
Delimit Scope py_scope with py.
Notation "x <- m ;; k" := (bind m (fun x => k))
  (at level 61, m at next level, right associativity) : py_scope.
Notation "m ;;; k" := (bind m (fun _ => k))
  (at level 61, right associativity) : py_scope.
Open Scope py_scope.

(* ================================================================== *)
(** ** The graph database seen from the driver *)
(* ================================================================== *)

(** Nodes, edges and paths as the client library hands them to the
    driver: a node carries its label and a [properties] dictionary, an
    edge its [relation], a path its [nodes()] and [edges()]. *)
Record Node : Type := mkNode
  { n_uid : nat; n_label : string; properties : list (string * string) }.

Record Edge : Type := mkEdge
  { e_uid : nat; e_src : nat; relation : string; e_dst : nat }.

Record Path : Type := mkPath { nodes : list Node; edges : list Edge }.

(** [n.properties[key]], [None] standing for the [KeyError] *)
Fixpoint lookup (key : string) (d : list (string * string)) : option string :=
  match d with
  | [] => None
  | (k, v) :: rest => if String.eqb key k then Some v else lookup key rest
  end.

Inductive Cell : Type :=
| CInt (n : Z)
| CStr (s : string)
| CNull
| CNode (n : Node)
| CPath (p : Path).

(** [result.result_set]: ordered rows of cells. *)
Definition ResultSet : Type := list (list Cell).

(** The query texts the driver builds, each with the values it splices
    into the text; the values bound through [params=] travel apart, as
    in the source. *)
Inductive Statement : Type :=
| CreateIndex (label : string)
    (* CREATE INDEX FOR (n:`label`) ON (n.id) *)
| CountIndexes (label attribute : string)
    (* CALL db.indexes() YIELD label, properties
       WHERE label='label' AND 'attribute' IN properties RETURN count( * ) *)
| MatchOutgoing (label : string)
    (* MATCH (n1:`label`)-[r]->(n2:`label`) WHERE n1.id = $subj
       RETURN type(r), n2.id *)
| MatchPaths (label : string) (depth limit : Z)
    (* MATCH (n1:label) WHERE n1.id IN $subjs WITH n1
       MATCH p=(n1)-[e*1..depth]->(z) RETURN p LIMIT limit *)
| MergeTriplet (label1 label2 rel : string)
    (* MERGE (n1:`label1` {id:$subj}) MERGE (n2:`label2` {id:$obj})
       MERGE (n1)-[:`rel`]->(n2) *)
| DeleteRel (label rel : string)
    (* MATCH (n1:`label`)-[r:`rel`]->(n2:`label`)
       WHERE n1.id = $subj AND n2.id = $obj DELETE r *)
| DeleteNode (label : string)
    (* MATCH (n:`label`) WHERE n.id = $entity DELETE n *)
| CountIncident (label : string).
    (* MATCH (n1:`label`)--() WHERE n1.id = $entity RETURN count( * ) *)

Inductive Value : Type :=
| VStr (s : string)
| VList (l : list string).

Definition Params : Type := list (string * Value).

Fixpoint param (k : string) (ps : Params) : option Value :=
  match ps with
  | [] => None
  | (k', v) :: rest => if String.eqb k k' then Some v else param k rest
  end.

(** A backing store answers a statement with a result set or raises,
    and moves to a new state. *)
Class Backend (B : Type) : Type :=
  { exec : Statement -> Params -> B -> (Exn + ResultSet) * B }.

(** What a driver call can touch: the store behind the connection, the
    module's [logger] (warnings only), and, as a ghost, the statements
    sent over the connection so far. *)
Record World (B : Type) : Type := mkWorld
  { w_store : B;
    w_warnings : list string;
    w_sent : list (Statement * Params) }.
Arguments mkWorld {B}.
Arguments w_store {B}.
Arguments w_warnings {B}.
Arguments w_sent {B}.

(* ================================================================== *)
(** ** FalkorDBGraphStoreDriver *)
(* ================================================================== *)

Module FalkorDBGraphStoreDriver.
Section Driver.
Context {B : Type} `{Backend B}.

Local Abbreviation M := (M (World B)).

Record Driver : Type := mkDriver
  { _node_label : string;
    _database : string;
    schema : string;
    get_query : Statement }.

(** [self._driver.query(q, params=ps).result_set] *)
Definition driver_query (q : Statement) (ps : Params) : M ResultSet :=
  fun w =>
    let (r, b) := exec q ps (w_store w) in
    (r, mkWorld b (w_warnings w) (w_sent w ++ [(q, ps)])).

(** [logger.warning(fmt, e)] *)
Definition logger_warning (fmt : string) (e : Exn) : M unit :=
  fun w =>
    (inr tt, mkWorld (w_store w) (w_warnings w ++ [(fmt ++ exn_str e)%string]) (w_sent w)).

(** [index_exists]: [result.result_set[0][0] > 0]. *)
Definition index_exists (node_label attribute : string) : M bool :=
  result_set <- driver_query (CountIndexes node_label attribute) [] ;;
  match result_set with
  | [] => raise (OtherError "IndexError" "list index out of range")
  | [] :: _ => raise (OtherError "IndexError" "list index out of range")
  | (CInt n :: _) :: _ => ret (0 <? n)%Z
  | (_ :: _) :: _ => raise (OtherError "TypeError" "'>' not supported")
  end.

(** The body of the [try] in [__init__]; [index_exists] reads
    [self._node_label], set on the first line. *)
Definition create_id_index (node_label : string) : M unit :=
  b <- index_exists node_label "id" ;;
  if negb b
  then driver_query (CreateIndex node_label) [] ;;; ret tt
  else ret tt.

(** The clause [except redis.exceptions.ResponseError as e] of
    [__init__]; an exception of another class is not caught. *)
Definition on_response_error (e : Exn) : M unit :=
  match e with
  | ResponseError _ =>
      if PyStr.contains "already indexed" (exn_str e)
      then logger_warning "Index on 'id' already exists: " e
      else raise e
  | _ => raise e
  end.

(** [__init__].  The connection handle
    [FalkorDB.from_url(url).select_graph(database)] is the store of
    the world. *)
Definition init (url database node_label : string) : M Driver :=
  try_except (create_id_index node_label) on_response_error ;;;
  ret (mkDriver node_label database EmptyString (MatchOutgoing node_label)).

(** [query] *)
Definition query (self : Driver) (q : Statement) (ps : Params) : M ResultSet :=
  driver_query q ps.

(** [get] *)
Definition get (self : Driver) (subj : string) : M ResultSet :=
  driver_query (get_query self) [("subj", VStr subj)].

(** The [rel_map] dictionary of [get_rel_map]: keys in insertion order,
    [rel_map.get(k, [])] and [rel_map[k] = v]. *)
Definition RelMap : Type := list (string * list (list string)).

Fixpoint dict_get (k : string) (d : RelMap) : list (list string) :=
  match d with
  | [] => []
  | (k', v) :: rest => if String.eqb k k' then v else dict_get k rest
  end.

Fixpoint dict_set (k : string) (v : list (list string)) (d : RelMap) : RelMap :=
  match d with
  | [] => [(k, v)]
  | (k', v') :: rest =>
      if String.eqb k k' then (k, v) :: rest else (k', v') :: dict_set k v rest
  end.

Definition prop_id (n : Node) : Exn + string :=
  match lookup "id" (properties n) with
  | Some v => inr v
  | None => inl (OtherError "KeyError" "id")
  end.

(** [record[0].nodes()] and [record[0].edges()] *)
Definition record_path (record : list Cell) : Exn + Path :=
  match record with
  | [] => inl (OtherError "IndexError" "list index out of range")
  | CPath p :: _ => inr p
  | _ :: _ => inl (OtherError "AttributeError" "nodes")
  end.

(** The inner loop of [get_rel_map]:
    [for i, edge in enumerate(edges): dest = nodes[i + 1] ...]. *)
Fixpoint walk (i : nat) (ns : list Node) (es : list Edge) (path : list string)
  : Exn + list string :=
  match es with
  | [] => inr path
  | edge :: rest =>
      match nth_error ns (i + 1) with
      | None => inl (OtherError "IndexError" "list index out of range")
      | Some dest =>
          match prop_id dest with
          | inl e => inl e
          | inr dest_id => walk (S i) ns rest (path ++ [relation edge; dest_id])
          end
      end
  end.

(** One turn of the outer loop of [get_rel_map]. *)
Definition add_record (rel_map : RelMap) (record : list Cell) : Exn + RelMap :=
  match record_path record with
  | inl e => inl e
  | inr p =>
      match nth_error (nodes p) 0 with
      | None => inl (OtherError "IndexError" "list index out of range")
      | Some n0 =>
          match prop_id n0 with
          | inl e => inl e
          | inr subj_id =>
              match walk 0 (nodes p) (edges p) [] with
              | inl e => inl e
              | inr path =>
                  let paths := dict_get subj_id rel_map in
                  inr (dict_set subj_id (paths ++ [path]) rel_map)
              end
          end
      end
  end.

Fixpoint add_records (rel_map : RelMap) (data : ResultSet) : Exn + RelMap :=
  match data with
  | [] => inr rel_map
  | record :: rest =>
      match add_record rel_map record with
      | inl e => inl e
      | inr rel_map' => add_records rel_map' rest
      end
  end.

(** [get_rel_map]; [subjs] is [Optional[list[str]]], [depth] and
    [limit] are Python ints. *)
Definition get_rel_map (self : Driver) (subjs : option (list string))
  (depth limit : Z) : M RelMap :=
  let rel_map : RelMap := [] in
  match subjs with
  | None => ret rel_map
  | Some [] => ret rel_map
  | Some subjs =>
      let q := MatchPaths (_node_label self) depth limit in
      data <- query self q [("subjs", VList subjs)] ;;
      match data with
      | [] => ret rel_map
      | _ =>
          match add_records rel_map data with
          | inl e => raise e
          | inr rel_map' => ret rel_map'
          end
      end
  end.

(** [upsert_triplet] *)
Definition upsert_triplet (self : Driver) (subj rel obj : string) : M unit :=
  let prepared_statement :=
    MergeTriplet (_node_label self) (_node_label self)
      (PyStr.upper (PyStr.replace " " "_" rel)) in
  driver_query prepared_statement [("subj", VStr subj); ("obj", VStr obj)] ;;;
  ret tt.

(** The three local functions of [delete]. *)
Definition delete_rel (self : Driver) (subj obj rel : string) : M unit :=
  let rel := PyStr.upper (PyStr.replace " " "_" rel) in
  driver_query (DeleteRel (_node_label self) rel)
    [("subj", VStr subj); ("obj", VStr obj)] ;;;
  ret tt.

Definition delete_entity (self : Driver) (entity : string) : M unit :=
  driver_query (DeleteNode (_node_label self)) [("entity", VStr entity)] ;;;
  ret tt.

(** [bool(result.result_set)]: a list is true when it is not empty. *)
Definition check_edges (self : Driver) (entity : string) : M bool :=
  result_set <- driver_query (CountIncident (_node_label self))
                  [("entity", VStr entity)] ;;
  ret (match result_set with [] => false | _ :: _ => true end).

(** [delete] *)
Definition delete (self : Driver) (subj rel obj : string) : M unit :=
  delete_rel self subj obj rel ;;;
  has_subj <- check_edges self subj ;;
  (if negb has_subj then delete_entity self subj else ret tt) ;;;
  has_obj <- check_edges self obj ;;
  (if negb has_obj then delete_entity self obj else ret tt).

(** [delete_node] *)
Definition delete_node (self : Driver) (node_id : string) : M unit :=
  delete self node_id EmptyString EmptyString.

(** [upsert_node]; [namespace], [meta] and [kwargs] are not read. *)
Definition upsert_node (self : Driver) (node_id : string) : M string :=
  upsert_triplet self node_id EmptyString EmptyString ;;;
  ret node_id.

End Driver.
End FalkorDBGraphStoreDriver.

(* ================================================================== *)
(** ** The FalkorDB property graph behind the connection *)
(* ================================================================== *)

(** The store is an external collaborator; its statements are given
    the meaning openCypher and the FalkorDB documentation give them:
    [MERGE] binds every match of its pattern and creates the pattern
    only when there is none, [DELETE] of a node takes the node's edges
    with it, a [RETURN count( * )] without grouping keys yields exactly
    one row, also when nothing matched (the driver's own
    [index_exists] reads that row with [result_set[0][0]]), and
    creating an index that exists is answered with the error
    [Attribute 'id' is already indexed]. *)
Module FalkorDB.

Record Graph : Type := mkGraph
  { g_nodes : list Node;
    g_edges : list Edge;
    g_next_node : nat;
    g_next_edge : nat;
    g_indexes : list (string * list string) }.

Definition empty : Graph := mkGraph [] [] 0 0 [].

Definition opt_eqb (a : option string) (b : string) : bool :=
  match a with
  | Some s => String.eqb s b
  | None => false
  end.

(** The node pattern [(n:`label` {id: id})]. *)
Definition node_matches (label id : string) (n : Node) : bool :=
  String.eqb (n_label n) label && opt_eqb (lookup "id" (properties n)) id.

Definition find_node (g : Graph) (uid : nat) : option Node :=
  find (fun n => n_uid n =? uid) (g_nodes g).

(** The pattern [(n:`label` {id: id})] can bind the node with internal
    identifier [uid]. *)
Definition uid_matches (g : Graph) (label id : string) (uid : nat) : bool :=
  existsb (fun n => (n_uid n =? uid) && node_matches label id n) (g_nodes g).

Definition edge_between (src : nat) (rel : string) (dst : nat) (e : Edge) : bool :=
  (e_src e =? src) && String.eqb (relation e) rel && (e_dst e =? dst).

(** The pattern [(n1:`label` {id: subj})-[r:`rel`]->(n2:`label` {id: obj})]. *)
Definition edge_matches (g : Graph) (label rel subj obj : string) (e : Edge) : bool :=
  String.eqb (relation e) rel
  && uid_matches g label subj (e_src e)
  && uid_matches g label obj (e_dst e).

(** [MERGE (n:`label` {id: id})]: the nodes bound to [n]. *)
Definition merge_node (label id : string) (g : Graph) : Graph * list nat :=
  match filter (node_matches label id) (g_nodes g) with
  | [] =>
      let u := g_next_node g in
      (mkGraph (g_nodes g ++ [mkNode u label [("id", id)]]) (g_edges g)
         (S u) (g_next_edge g) (g_indexes g),
       [u])
  | found => (g, map n_uid found)
  end.

(** [MERGE (n1)-[:`rel`]->(n2)] for one binding of [n1] and [n2]. *)
Definition merge_edge (rel : string) (g : Graph) (ends : nat * nat) : Graph :=
  let (src, dst) := ends in
  if existsb (edge_between src rel dst) (g_edges g)
  then g
  else
    let u := g_next_edge g in
    mkGraph (g_nodes g) (g_edges g ++ [mkEdge u src rel dst])
      (g_next_node g) (S u) (g_indexes g).

Definition merge_triplet (label1 label2 rel subj obj : string) (g : Graph) : Graph :=
  let (g1, n1s) := merge_node label1 subj g in
  let (g2, n2s) := merge_node label2 obj g1 in
  fold_left (merge_edge rel) (list_prod n1s n2s) g2.

Definition delete_rel (label rel subj obj : string) (g : Graph) : Graph :=
  mkGraph (g_nodes g)
    (filter (fun e => negb (edge_matches g label rel subj obj e)) (g_edges g))
    (g_next_node g) (g_next_edge g) (g_indexes g).

Definition delete_node (label entity : string) (g : Graph) : Graph :=
  mkGraph
    (filter (fun n => negb (node_matches label entity n)) (g_nodes g))
    (filter (fun e => negb (uid_matches g label entity (e_src e)
                            || uid_matches g label entity (e_dst e)))
       (g_edges g))
    (g_next_node g) (g_next_edge g) (g_indexes g).

(** The edges met by [(n1)--()] from the node [n]. *)
Definition incident (g : Graph) (n : Node) : list Edge :=
  filter (fun e => (e_src e =? n_uid n) || (e_dst e =? n_uid n)) (g_edges g).

Definition count_incident (label entity : string) (g : Graph) : Z :=
  Z.of_nat
    (List.length
       (flat_map (incident g) (filter (node_matches label entity) (g_nodes g)))).

Definition has_index (label attribute : string) (g : Graph) : bool :=
  existsb (fun row => String.eqb (fst row) label
                      && existsb (String.eqb attribute) (snd row))
    (g_indexes g).

Definition count_indexes (label attribute : string) (g : Graph) : Z :=
  Z.of_nat
    (List.length
       (filter (fun row => String.eqb (fst row) label
                           && existsb (String.eqb attribute) (snd row))
          (g_indexes g))).

Fixpoint add_index (label attribute : string) (ix : list (string * list string))
  : list (string * list string) :=
  match ix with
  | [] => [(label, [attribute])]
  | (l, attrs) :: rest =>
      if String.eqb l label
      then (l, attrs ++ [attribute]) :: rest
      else (l, attrs) :: add_index label attribute rest
  end.

Definition create_index (label : string) (g : Graph) : (Exn + ResultSet) * Graph :=
  if has_index label "id" g
  then (inl (ResponseError "Attribute 'id' is already indexed"), g)
  else (inr [],
        mkGraph (g_nodes g) (g_edges g) (g_next_node g) (g_next_edge g)
          (add_index label "id" (g_indexes g))).

(** [MATCH (n1:`label`)-[r]->(n2:`label`) WHERE n1.id = $subj
    RETURN type(r), n2.id] *)
Definition id_cell (n : Node) : Cell :=
  match lookup "id" (properties n) with
  | Some v => CStr v
  | None => CNull
  end.

Definition outgoing_rows (g : Graph) (label : string) (n1 : Node) : ResultSet :=
  flat_map
    (fun r =>
       if e_src r =? n_uid n1
       then match find_node g (e_dst r) with
            | Some n2 =>
                if String.eqb (n_label n2) label
                then [[CStr (relation r); id_cell n2]]
                else []
            | None => []
            end
       else [])
    (g_edges g).

Definition match_outgoing (label subj : string) (g : Graph) : ResultSet :=
  flat_map (outgoing_rows g label) (filter (node_matches label subj) (g_nodes g)).

(** The matches of [(n1)-[e*1..depth]->(z)] from [n1]: the nodes after
    [n1] and the edges walked, no edge walked twice. *)
Fixpoint walks (depth : nat) (g : Graph) (n1 : nat) (used : list nat)
  : list (list Node * list Edge) :=
  match depth with
  | O => []
  | S d =>
      flat_map
        (fun e =>
           if (e_src e =? n1) && negb (existsb (Nat.eqb (e_uid e)) used)
           then match find_node g (e_dst e) with
                | Some z =>
                    ([z], [e])
                    :: map (fun w => (z :: fst w, e :: snd w))
                         (walks d g (n_uid z) (e_uid e :: used))
                | None => []
                end
           else [])
        (g_edges g)
  end.

Definition paths_from (depth : nat) (g : Graph) (n1 : Node) : ResultSet :=
  map (fun w => [CPath (mkPath (n1 :: fst w) (snd w))])
    (walks depth g (n_uid n1) []).

(** [MATCH (n1:label) WHERE n1.id IN $subjs WITH n1
    MATCH p=(n1)-[e*1..depth]->(z) RETURN p LIMIT limit]: a negative
    bound is not a statement of the language. *)
Definition match_paths (label : string) (depth limit : Z) (subjs : list string)
  (g : Graph) : Exn + ResultSet :=
  if (depth <? 0)%Z || (limit <? 0)%Z
  then inl (ResponseError "errMsg: Invalid input")
  else
    inr (firstn (Z.to_nat limit)
           (flat_map (paths_from (Z.to_nat depth) g)
              (filter (fun n => String.eqb (n_label n) label
                                && existsb (opt_eqb (lookup "id" (properties n))) subjs)
                 (g_nodes g)))).

Definition missing_params : Exn := ResponseError "Missing parameters".

Definition str_param (k : string) (ps : Params) : option string :=
  match param k ps with
  | Some (VStr s) => Some s
  | _ => None
  end.

(** [Graph.query(statement, params)] *)
Definition run (q : Statement) (ps : Params) (g : Graph) : (Exn + ResultSet) * Graph :=
  match q with
  | CreateIndex label => create_index label g
  | CountIndexes label attribute => (inr [[CInt (count_indexes label attribute g)]], g)
  | MatchOutgoing label =>
      match str_param "subj" ps with
      | Some subj => (inr (match_outgoing label subj g), g)
      | None => (inl missing_params, g)
      end
  | MatchPaths label depth limit =>
      match param "subjs" ps with
      | Some (VList subjs) => (match_paths label depth limit subjs g, g)
      | _ => (inl missing_params, g)
      end
  | MergeTriplet label1 label2 rel =>
      match str_param "subj" ps, str_param "obj" ps with
      | Some subj, Some obj => (inr [], merge_triplet label1 label2 rel subj obj g)
      | _, _ => (inl missing_params, g)
      end
  | DeleteRel label rel =>
      match str_param "subj" ps, str_param "obj" ps with
      | Some subj, Some obj => (inr [], delete_rel label rel subj obj g)
      | _, _ => (inl missing_params, g)
      end
  | DeleteNode label =>
      match str_param "entity" ps with
      | Some entity => (inr [], delete_node label entity g)
      | None => (inl missing_params, g)
      end
  | CountIncident label =>
      match str_param "entity" ps with
      | Some entity => (inr [[CInt (count_incident label entity g)]], g)
      | None => (inl missing_params, g)
      end
  end.

#[export] Instance graph_backend : Backend Graph := {| exec := run |}.

(** A world whose store is the graph [g], nothing logged or sent yet. *)
Definition world (g : Graph) : World Graph := mkWorld g [] [].

End FalkorDB.

(* ================================================================== *)
(** ** BaseAudioTranscriptionDriver *)
(* ================================================================== *)

Module BaseAudioTranscriptionDriver.

Inductive Event : Type :=
| StartAudioTranscriptionEvent
| FinishAudioTranscriptionEvent.

(** What is observed of a [run]: the events published on the event
    bus and, as a ghost, the calls of [try_run], in the order they
    happen. *)
Inductive Obs : Type :=
| Published (ev : Event)
| Attempted.

(** The world of the driver: the state [E] of the transcription
    provider behind [try_run], and the observations so far. *)
Record World (E : Type) : Type := mkWorld { provider : E; trace : list Obs }.
Arguments mkWorld {E}.
Arguments provider {E}.
Arguments trace {E}.

Definition is_start (o : Obs) : bool :=
  match o with Published StartAudioTranscriptionEvent => true | _ => false end.

Definition is_finish (o : Obs) : bool :=
  match o with Published FinishAudioTranscriptionEvent => true | _ => false end.

Definition is_attempt (o : Obs) : bool :=
  match o with Attempted => true | _ => false end.

Definition count (p : Obs -> bool) (t : list Obs) : nat :=
  List.length (filter p t).

(** The attributes of the driver: [model], and [max_attempts], the
    number of attempts the retry policy inherited from
    [ExponentialBackoffMixin] allows. *)
Record Driver : Type := mkDriver { model : string; max_attempts : nat }.

(** Modelled from the spec: [ExponentialBackoffMixin.retrying] is not
    among the sources.  Following section 4.1 (bounded attempt count)
    the iterator it returns is the number of attempts it can still
    hand out; it hands out the next one only after the last one
    failed, and when none is left the iteration ends, which takes a
    [for] loop over it to its [else].  The delay between two attempts
    is not modelled. *)
Definition retrying (self : Driver) : nat := max_attempts self.

Section Driver.
Context {E Audio Text : Type}.

(** The abstract [try_run] of a concrete driver. *)
Variable try_run : Audio -> option (list string) -> E -> (Exn + Text) * E.

Local Abbreviation M := (M (World E)).

(** [event_bus.publish_event(ev)] *)
Definition publish_event (ev : Event) : M unit :=
  fun w => (inr tt, mkWorld (provider w) (trace w ++ [Published ev])).

Definition before_run : M unit := publish_event StartAudioTranscriptionEvent.

Definition after_run : M unit := publish_event FinishAudioTranscriptionEvent.

(** [self.try_run(audio, prompts)], observed. *)
Definition call_try_run (audio : Audio) (prompts : option (list string)) : M Text :=
  fun w =>
    let (r, p) := try_run audio prompts (provider w) in
    (r, mkWorld p (trace w ++ [Attempted])).

(** Modelled from the spec: the attempt objects that the iterator of
    [retrying] yields are not among the sources.  Following section
    4.1 (any exception of [try_run] is retryable, the policy decides
    whether to go on), [with attempt:] keeps an exception of its body
    to itself and lets the loop go on; a body that returns leaves
    [run] with its value. *)
Definition with_attempt {A} (body : M A) : M (option A) :=
  fun w =>
    match body w with
    | (inr a, w') => (inr (Some a), w')
    | (inl _, w') => (inr None, w')
    end.

(** The loop [for attempt in self.retrying(): with attempt: ...] of
    [run] with [budget] attempts left to hand out, and its [else]. *)
Fixpoint run_loop (budget : nat) (audio : Audio) (prompts : option (list string))
  : M Text :=
  match budget with
  | O => raise (PlainException "Failed to run audio transcription")
  | S budget' =>
      outcome <- with_attempt
                   (before_run ;;;
                    result <- call_try_run audio prompts ;;
                    after_run ;;;
                    ret result) ;;
      match outcome with
      | Some result => ret result
      | None => run_loop budget' audio prompts
      end
  end.

Definition run (self : Driver) (audio : Audio) (prompts : option (list string))
  : M Text :=
  run_loop (retrying self) audio prompts.

End Driver.
End BaseAudioTranscriptionDriver.

(* ================================================================== *)
(** ** FalkorDBGraphStoreDriver: the schema cache and the entries *)
(* ================================================================== *)

(** Modelled from the spec: [BaseGraphStoreDriver.Entry] is not among
    the sources.  Section 3 describes an entity as an identifier with
    an open mapping from property keys to values, and the driver
    builds it with the keywords [id] and [properties]. *)
Module BaseGraphStoreDriver.

Record Entry : Type := mkEntry
  { id : string; properties : list (string * string) }.

End BaseGraphStoreDriver.

Module SchemaAndEntries.
Import FalkorDBGraphStoreDriver.

(** The query texts that [refresh_schema], [load_entry] and
    [load_entries] hand to [query], all without [params].  The id of
    [MatchNodeById] is spliced into the text between single quotes;
    the text says what is meant here only for an id without a quote
    or a backslash. *)
Inductive Text : Type :=
| PropertyKeys
    (* CALL DB.PROPERTYKEYS() *)
| RelationshipTypes
    (* CALL DB.RELATIONSHIPTYPES() *)
| MatchNodeById (node_id : string)
    (* MATCH (n {id: 'node_id'}) RETURN n *)
| MatchNodes.
    (* MATCH (n) RETURN n *)

Class TextBackend (B : Type) : Type :=
  { exec_text : Text -> B -> (Exn + ResultSet) * B }.

(** What these methods can touch: the store, the texts sent to it so
    far (a ghost) and the [logger] at debug level. *)
Record Session (B : Type) : Type := mkSession
  { s_store : B;
    s_sent : list Text;
    s_debug : list string }.
Arguments mkSession {B}.
Arguments s_store {B}.
Arguments s_sent {B}.
Arguments s_debug {B}.

(** The line feed of the string literals. *)
Definition nl : string := String "010"%char EmptyString.

Section Methods.
Context {B : Type} `{TextBackend B}.

(** [str(x)] of a result set inside an f-string, a built-in of
    Python. *)
Variable py_str : ResultSet -> string.

Local Abbreviation M := (M (Session B)).

(** [query(text)]: [self._driver.query(text, params=None).result_set] *)
Definition query_text (q : Text) : M ResultSet :=
  fun s =>
    let (r, b) := exec_text q (s_store s) in
    (r, mkSession b (s_sent s ++ [q]) (s_debug s)).

(** [logger.debug(msg)] *)
Definition logger_debug (msg : string) : M unit :=
  fun s => (inr tt, mkSession (s_store s) (s_sent s) (s_debug s ++ [msg])).

(** The f-string of [refresh_schema]. *)
Definition schema_text (node_properties relationships : ResultSet) : string :=
  (nl ++ "        Properties: " ++ py_str node_properties
   ++ nl ++ "        Relationships: " ++ py_str relationships
   ++ nl ++ "        ")%string.

Definition with_schema (self : Driver) (text : string) : Driver :=
  mkDriver (_node_label self) (_database self) text (get_query self).

(** [refresh_schema]; the driver it returns is [self] after the
    assignment to [self.schema], the last statement of the method. *)
Definition refresh_schema (self : Driver) : M Driver :=
  node_properties <- query_text PropertyKeys ;;
  relationships <- query_text RelationshipTypes ;;
  ret (with_schema self (schema_text node_properties relationships)).

(** [if s:] for a string. *)
Definition truthy (s : string) : bool :=
  match s with
  | EmptyString => false
  | String _ _ => true
  end.

(** [get_schema(refresh=...)]: the text returned, and [self]
    afterwards. *)
Definition get_schema (self : Driver) (refresh : bool) : M (string * Driver) :=
  if truthy (schema self) && negb refresh
  then ret (schema self, self)
  else
    self' <- refresh_schema self ;;
    logger_debug ("get_schema() schema:" ++ nl ++ schema self')%string ;;;
    ret (schema self', self').

(** [x.properties] for a cell of a result row: nodes have the
    attribute, numbers, strings, [None] and paths do not. *)
Definition cell_properties (c : Cell) : Exn + list (string * string) :=
  match c with
  | CNode n => inr (properties n)
  | CInt _ => inl (OtherError "AttributeError" "'int' object has no attribute 'properties'")
  | CStr _ => inl (OtherError "AttributeError" "'str' object has no attribute 'properties'")
  | CNull => inl (OtherError "AttributeError" "'NoneType' object has no attribute 'properties'")
  | CPath _ => inl (OtherError "AttributeError" "'Path' object has no attribute 'properties'")
  end.

(** [load_entry]; [namespace] is not read. *)
Definition load_entry (self : Driver) (node_id : string)
  : M (option BaseGraphStoreDriver.Entry) :=
  result <- query_text (MatchNodeById node_id) ;;
  match result with
  | [] => ret None
  | [] :: _ => raise (OtherError "IndexError" "list index out of range")
  | (c :: _) :: _ =>
      match cell_properties c with
      | inl e => raise e
      | inr props => ret (Some (BaseGraphStoreDriver.mkEntry node_id props))
      end
  end.

(** [row.name] for a row of a result set: a row is a Python list, and
    a list has neither [id] nor [properties]; there is no value such
    a look-up could return. *)
Definition list_getattr (name : string) (row : list Cell) : Exn + Empty_set :=
  inl (OtherError "AttributeError"
         ("'list' object has no attribute '" ++ name ++ "'")%string).

(** The comprehension of [load_entries],
    [[Entry(id=node.id, properties=node.properties) for node in result]]:
    [node] runs over the rows of the result set. *)
Fixpoint entries_of (result : ResultSet) : Exn + list BaseGraphStoreDriver.Entry :=
  match result with
  | [] => inr []
  | node :: rest =>
      match list_getattr "id" node with
      | inl e => inl e
      | inr node_id =>
          match list_getattr "properties" node with
          | inl e => inl e
          | inr node_properties =>
              match entries_of rest with
              | inl e => inl e
              | inr entries =>
                  inr (BaseGraphStoreDriver.mkEntry
                         (match node_id with end)
                         (match node_properties with end) :: entries)
              end
          end
      end
  end.

(** [load_entries]; [namespace] is not read. *)
Definition load_entries (self : Driver) : M (list BaseGraphStoreDriver.Entry) :=
  result <- query_text MatchNodes ;;
  match entries_of result with
  | inl e => raise e
  | inr entries => ret entries
  end.

End Methods.
End SchemaAndEntries.

(* ================================================================== *)
(** * Vocabulary of the properties *)
(* ================================================================== *)

Module AudioTranscriptionSpec.
Import BaseAudioTranscriptionDriver.

(** What [k] attempts that raise leave on the trace: a start event,
    then the call, [k] times over. *)
Fixpoint failed_attempts (k : nat) : list Obs :=
  match k with
  | O => []
  | S k' => Published StartAudioTranscriptionEvent :: Attempted :: failed_attempts k'
  end.

(** The provider after [k] calls of [try_run] that all raised, if they
    did. *)
Fixpoint after_failures {E Audio Text : Type}
  (try_run : Audio -> option (list string) -> E -> (Exn + Text) * E)
  (k : nat) (audio : Audio) (prompts : option (list string)) (p : E) : option E :=
  match k with
  | O => Some p
  | S k' =>
      match try_run audio prompts p with
      | (inl _, p') => after_failures try_run k' audio prompts p'
      | (inr _, _) => None
      end
  end.

(** A provider that times out on every call. *)
Definition always_times_out (_ : unit) (_ : option (list string)) (p : nat)
  : (Exn + string) * nat :=
  (inl (OtherError "TimeoutError" "timed out"), S p).

(** A provider that raises on its first two calls and answers from
    the third on; its state counts the calls. *)
Definition third_time_lucky (_ : unit) (_ : option (list string)) (p : nat)
  : (Exn + string) * nat :=
  if p <? 2
  then (inl (OtherError "ConnectionError" "reset"), S p)
  else (inr "hello world", S p).

End AudioTranscriptionSpec.

Module GraphStoreSpec.
Import FalkorDBGraphStoreDriver FalkorDB.

(** A driver with the default database and node label. *)
Definition entity_driver : Driver :=
  mkDriver "Entity" "falkor" EmptyString (MatchOutgoing "Entity").

(** At most one node for a label and an id, and at most one edge of a
    type between two nodes. *)
Definition no_duplicates (g : Graph) : Prop :=
  (forall l id, List.length (filter (node_matches l id) (g_nodes g)) <= 1)
  /\ (forall s rel d, List.length (filter (edge_between s rel d) (g_edges g)) <= 1).

(** The relation label as the specification describes its stored
    form: every space becomes an underscore and every letter is
    upper-cased, character by character. *)
Definition normalized_char (c : ascii) : ascii :=
  if Ascii.eqb c " " then "_"%char else PyStr.upper_char c.

Fixpoint normalized_label (rel : string) : string :=
  match rel with
  | EmptyString => EmptyString
  | String c rel' => String (normalized_char c) (normalized_label rel')
  end.

Definition is_space (c : ascii) : bool := Ascii.eqb c " ".

(** A graph that holds the entity [a] twice, as a store may when
    something else than the driver wrote to it: the index on [id] is
    no uniqueness constraint. *)
Definition two_nodes_a : Graph :=
  mkGraph [mkNode 0 "Entity" [("id", "a")]; mkNode 1 "Entity" [("id", "a")]]
    [] 2 0 [("Entity", ["id"])].

(** The exception that [__init__] takes for "the index exists
    already": a [ResponseError] whose text has [already indexed]. *)
Definition already_indexed (e : Exn) : bool :=
  match e with
  | ResponseError msg => PyStr.contains "already indexed" msg
  | _ => false
  end.

(** Two stores for the paths of [__init__] that a FalkorDB graph used
    by one client alone does not take: [Racing] reports no index and
    then refuses to create it, as when another client created it in
    between; [Down] refuses every statement. *)
Inductive Faulty : Type := Racing | Down.

Definition faulty_exec (q : Statement) (ps : Params) (b : Faulty)
  : (Exn + ResultSet) * Faulty :=
  match b, q with
  | Racing, CountIndexes _ _ => (inr [[CInt 0]], b)
  | Racing, CreateIndex _ => (inl (ResponseError "Attribute 'id' is already indexed"), b)
  | Racing, _ => (inr [], b)
  | Down, _ => (inl (OtherError "ConnectionError" "Connection refused"), b)
  end.

#[export] Instance faulty_backend : Backend Faulty := {| exec := faulty_exec |}.

End GraphStoreSpec.

(* ================================================================== *)
(** * Vocabulary of the further properties *)
(* ================================================================== *)

Module SchemaAndEntriesSpec.
Import SchemaAndEntries.

(** A store that answers every text from a fixed table and never
    changes. *)
Record Scripted : Type := mkScripted { answer : Text -> Exn + ResultSet }.

#[export] Instance scripted_backend : TextBackend Scripted :=
  {| exec_text := fun q b => (answer b q, b) |}.

(** A store with the two entities [a] and [b] and one relation type. *)
Definition two_entities : Scripted :=
  mkScripted
    (fun q =>
       match q with
       | PropertyKeys => inr [[CStr "id"]]
       | RelationshipTypes => inr [[CStr "R"]]
       | MatchNodeById node_id =>
           if String.eqb node_id "a"
           then inr [[CNode (mkNode 0 "Entity" [("id", "a")])]]
           else if String.eqb node_id "b"
                then inr [[CNode (mkNode 1 "Entity" [("id", "b")])]]
                else inr []
       | MatchNodes =>
           inr [[CNode (mkNode 0 "Entity" [("id", "a")])];
                [CNode (mkNode 1 "Entity" [("id", "b")])]]
       end).

(** A stand-in for [str] of a result set: the number of its rows in
    unary. *)
Definition tally (rows : ResultSet) : string :=
  fold_right (fun _ acc => String "|"%char acc) EmptyString rows.

End SchemaAndEntriesSpec.

Module GraphStoreMoreSpec.
Import FalkorDBGraphStoreDriver FalkorDB.

(** The driver carries the [get_query] that [__init__] builds from its
    node label. *)
Definition constructed (self : Driver) : Prop :=
  get_query self = MatchOutgoing (_node_label self).

(** Internal node identifiers are unique and below the counter that
    hands out the next one. *)
Definition well_formed (g : Graph) : Prop :=
  NoDup (map n_uid (g_nodes g))
  /\ Forall (fun n => n_uid n < g_next_node g) (g_nodes g).

(** Every node has an [id] property. *)
Definition all_have_id (g : Graph) : Prop :=
  Forall (fun n => lookup "id" (properties n) <> None) (g_nodes g).

(** A property of the graph that no statement of the driver breaks. *)
Definition statement_invariant (P : Graph -> Prop) : Prop :=
  forall q ps g, P g -> P (snd (run q ps g)).

(** A method call on a driver, and a sequence of such calls played
    against a world, each from the world the last one left; a call
    that raises leaves the world it raised in. *)
Inductive Call : Type :=
| CallInit (url database node_label : string)
| CallGet (subj : string)
| CallGetRelMap (subjs : option (list string)) (depth limit : Z)
| CallUpsertTriplet (subj rel obj : string)
| CallDelete (subj rel obj : string)
| CallDeleteNode (node_id : string)
| CallUpsertNode (node_id : string).

Definition perform (w : World Graph) (c : Driver * Call) : World Graph :=
  let (self, call) := c in
  match call with
  | CallInit url database node_label => snd (init url database node_label w)
  | CallGet subj => snd (get self subj w)
  | CallGetRelMap subjs depth limit => snd (get_rel_map self subjs depth limit w)
  | CallUpsertTriplet subj rel obj => snd (upsert_triplet self subj rel obj w)
  | CallDelete subj rel obj => snd (delete self subj rel obj w)
  | CallDeleteNode node_id =>
      snd (FalkorDBGraphStoreDriver.delete_node self node_id w)
  | CallUpsertNode node_id => snd (upsert_node self node_id w)
  end.

Definition perform_all (calls : list (Driver * Call)) (w : World Graph) : World Graph :=
  fold_left perform calls w.

(** The alternating sequence of relation and node id along a path:
    the relation of each edge followed by the id of the node the edge
    leads to. *)
Fixpoint alternate (es : list Edge) (ids : list string) : list string :=
  match es, ids with
  | e :: es', i :: ids' => relation e :: i :: alternate es' ids'
  | _, _ => []
  end.

(** The id property of every node of a list, when each has one. *)
Definition has_ids (ns : list Node) (ids : list string) : Prop :=
  map (fun n => lookup "id" (properties n)) ns = map Some ids.

(** The row is led by a path whose nodes all have an id, one node
    more than it has edges: it stands for the subject [fst kp] and the
    alternating sequence [snd kp]. *)
Definition decodes (row : list Cell) (kp : string * list string) : Prop :=
  exists p rest ids,
    row = CPath p :: rest
    /\ has_ids (nodes p) (fst kp :: ids)
    /\ List.length ids = List.length (edges p)
    /\ snd kp = alternate (edges p) ids.

(** The paths of a subject among decoded rows, in the order of the
    rows. *)
Definition paths_of (k : string) (kps : list (string * list string))
  : list (list string) :=
  map snd (filter (fun kp => String.eqb k (fst kp)) kps).

(** The number of paths a relationship map holds. *)
Definition total_paths (m : RelMap) : nat :=
  list_sum (map (fun kv => List.length (snd kv)) m).

End GraphStoreMoreSpec.

(* ================================================================== *)
(** * Properties of the retrying [run] *)
(* ================================================================== *)

Module AudioTranscriptionProofs.
Import BaseAudioTranscriptionDriver AudioTranscriptionSpec.

Lemma count_app (p : Obs -> bool) (t u : list Obs) :
  count p (t ++ u) = count p t + count p u.
Proof. unfold count. now rewrite filter_app, length_app. Qed.

Lemma count_failed_attempts (k : nat) :
  count is_start (failed_attempts k) = k
  /\ count is_attempt (failed_attempts k) = k
  /\ count is_finish (failed_attempts k) = 0.
Proof.
  induction k as [|k (Hs & Ha & Hf)]; [now cbn|].
  unfold count in *; cbn. now rewrite Hs, Ha, Hf.
Qed.

Section Run.
Context {E Audio Text : Type}.
Variable try_run : Audio -> option (list string) -> E -> (Exn + Text) * E.
Variable audio : Audio.
Variable prompts : option (list string).

(** One attempt that raises publishes a start event, calls [try_run],
    and hands the loop to the next attempt. *)
Lemma run_loop_failed_attempt (budget : nat) (w : World E) (e : Exn) (p' : E) :
  try_run audio prompts (provider w) = (inl e, p') ->
  run_loop try_run (S budget) audio prompts w
  = run_loop try_run budget audio prompts
      (mkWorld p' (trace w ++ failed_attempts 1)).
Proof.
  intros Htry. cbn [run_loop]. unfold bind at 1, with_attempt, bind, before_run,
    publish_event, call_try_run. cbn. rewrite Htry. cbn.
  now rewrite <- app_assoc.
Qed.

Lemma run_loop_after_failures (k budget : nat) (w : World E) (p' : E) :
  after_failures try_run k audio prompts (provider w) = Some p' ->
  run_loop try_run (k + budget) audio prompts w
  = run_loop try_run budget audio prompts
      (mkWorld p' (trace w ++ failed_attempts k)).
Proof.
  revert w. induction k as [|k IH]; intros w Hk; cbn in Hk.
  - injection Hk as <-. cbn. rewrite app_nil_r. now destruct w.
  - destruct (try_run audio prompts (provider w)) as [[e|r] p1] eqn:Htry;
      [|discriminate].
    cbn [Nat.add]. rewrite (run_loop_failed_attempt _ _ _ _ Htry).
    rewrite IH by exact Hk. cbn. now rewrite <- app_assoc.
Qed.

Lemma always_fails_after_failures (k : nat) (p : E) :
  (forall q, exists e q', try_run audio prompts q = (inl e, q')) ->
  exists p', after_failures try_run k audio prompts p = Some p'.
Proof.
  intros Hfail. revert p. induction k as [|k IH]; intros p; cbn.
  - now exists p.
  - destruct (Hfail p) as (e & q' & ->). apply IH.
Qed.

(** C2. When [try_run] raises on every attempt, [run] under a policy
    of [max_attempts] attempts raises the plain exception "Failed to
    run audio transcription", whatever the attempts raised; it has
    then made exactly [max_attempts] calls of [try_run], each one
    preceded by its own start event, and published no finish event. *)
Theorem run_raises_when_budget_spent (self : Driver) (w : World E) :
  (forall p, exists e p', try_run audio prompts p = (inl e, p')) ->
  exists p' t,
    run try_run self audio prompts w
    = (inl (PlainException "Failed to run audio transcription"),
       mkWorld p' (trace w ++ t))
    /\ t = failed_attempts (max_attempts self)
    /\ count is_attempt t = max_attempts self
    /\ count is_start t = max_attempts self
    /\ count is_finish t = 0.
Proof.
  intros Hfail.
  destruct (always_fails_after_failures (max_attempts self) (provider w) Hfail)
    as (p' & Hp').
  exists p', (failed_attempts (max_attempts self)).
  destruct (count_failed_attempts (max_attempts self)) as (Hs & Ha & Hf).
  repeat split; try assumption.
  unfold run, retrying. rewrite <- (Nat.add_0_r (max_attempts self)) at 1.
  now rewrite (run_loop_after_failures _ 0 _ _ Hp').
Qed.

(** C3. When [try_run] raises on the first [k] attempts and returns
    [result] on the next one, and the policy allows more than [k]
    attempts, [run] returns [result]; every one of the [k + 1]
    attempts is preceded by its own start event, and the one finish
    event comes last, after the call that returned. *)
Theorem run_returns_first_success (self : Driver) (w : World E)
  (k : nat) (p1 p2 : E) (result : Text) :
  after_failures try_run k audio prompts (provider w) = Some p1 ->
  try_run audio prompts p1 = (inr result, p2) ->
  k < max_attempts self ->
  exists t,
    run try_run self audio prompts w = (inr result, mkWorld p2 (trace w ++ t))
    /\ t = failed_attempts k
           ++ [Published StartAudioTranscriptionEvent; Attempted;
               Published FinishAudioTranscriptionEvent]
    /\ count is_attempt t = k + 1
    /\ count is_start t = k + 1
    /\ count is_finish t = 1.
Proof.
  intros Hk Htry Hlt.
  destruct (count_failed_attempts k) as (Hs & Ha & Hf).
  eexists. split; [|split; [reflexivity|]].
  - unfold run, retrying.
    replace (max_attempts self) with (k + S (max_attempts self - S k)) by lia.
    rewrite (run_loop_after_failures _ _ _ _ Hk).
    cbn [run_loop]. unfold bind at 1, with_attempt, bind, before_run, after_run,
      publish_event, call_try_run, ret. cbn. rewrite Htry. cbn.
    now rewrite <- !app_assoc.
  - rewrite !count_app, Hs, Ha, Hf. now cbn.
Qed.

End Run.

Lemma run_raises_when_budget_spent_witness :
  exists p' t,
    run always_times_out (mkDriver "whisper-1" 3) tt None (mkWorld 0 [])
    = (inl (PlainException "Failed to run audio transcription"), mkWorld p' t)
    /\ count is_attempt t = 3.
Proof.
  destruct (run_raises_when_budget_spent always_times_out tt None
              (mkDriver "whisper-1" 3) (mkWorld 0 []))
    as (p' & t & Hrun & _ & Ha & _).
  - intros p. now exists (OtherError "TimeoutError" "timed out"), (S p).
  - now exists p', t.
Defined.

Lemma run_returns_first_success_witness :
  exists t,
    run third_time_lucky (mkDriver "whisper-1" 10) tt None (mkWorld 0 [])
    = (inr "hello world", mkWorld 3 t)
    /\ count is_start t = 3 /\ count is_finish t = 1.
Proof.
  destruct (run_returns_first_success third_time_lucky tt None
              (mkDriver "whisper-1" 10) (mkWorld 0 []) 2 2 3 "hello world")
    as (t & Hrun & _ & _ & Hs & Hf).
  - reflexivity.
  - reflexivity.
  - cbn; lia.
  - now exists t.
Defined.

End AudioTranscriptionProofs.

(* ================================================================== *)
(** * Properties of the graph store driver *)
(* ================================================================== *)

Module GraphStoreProofs.
Import FalkorDBGraphStoreDriver FalkorDB GraphStoreSpec.

(** ** [MERGE] on the FalkorDB graph *)

Lemma node_matches_new (l id l' id' : string) (u : nat) :
  node_matches l' id' (mkNode u l [("id", id)])
  = String.eqb l l' && String.eqb id id'.
Proof. reflexivity. Qed.

Lemma node_matches_same (l id : string) (u : nat) :
  node_matches l id (mkNode u l [("id", id)]) = true.
Proof. rewrite node_matches_new, !String.eqb_refl. reflexivity. Qed.

(** What [merge_node] returns: the graph with a fresh node when the
    pattern had no match and the graph itself otherwise, and the
    identifiers of the nodes that fit the pattern afterwards. *)
Lemma merge_node_found (l id : string) (g : Graph) :
  filter (node_matches l id) (g_nodes g) <> [] ->
  merge_node l id g = (g, map n_uid (filter (node_matches l id) (g_nodes g))).
Proof.
  intros Hne. unfold merge_node.
  destruct (filter (node_matches l id) (g_nodes g)); [contradiction|reflexivity].
Qed.

Lemma merge_node_bound (l id : string) (g : Graph) :
  snd (merge_node l id g)
  = map n_uid (filter (node_matches l id) (g_nodes (fst (merge_node l id g))))
  /\ filter (node_matches l id) (g_nodes (fst (merge_node l id g))) <> [].
Proof.
  unfold merge_node.
  destruct (filter (node_matches l id) (g_nodes g)) as [|n ns] eqn:Hf; cbn.
  - rewrite filter_app, Hf. cbn. rewrite node_matches_same. cbn.
    split; [reflexivity|discriminate].
  - rewrite Hf. split; [reflexivity|discriminate].
Qed.

Lemma merge_node_edges (l id : string) (g : Graph) :
  g_edges (fst (merge_node l id g)) = g_edges g.
Proof.
  unfold merge_node. now destruct (filter (node_matches l id) (g_nodes g)).
Qed.

(** A pattern that had a match keeps exactly its matches when another
    node is merged. *)
Lemma merge_node_keeps_matches (l id l' id' : string) (g : Graph) :
  filter (node_matches l' id') (g_nodes g) <> [] ->
  filter (node_matches l' id') (g_nodes (fst (merge_node l id g)))
  = filter (node_matches l' id') (g_nodes g).
Proof.
  intros Hne. unfold merge_node.
  destruct (filter (node_matches l id) (g_nodes g)) as [|n ns] eqn:Hf;
    [|reflexivity].
  cbn. rewrite filter_app. cbn. rewrite node_matches_new.
  destruct (String.eqb l l') eqn:Hl; [|now rewrite app_nil_r].
  destruct (String.eqb id id') eqn:Hi; [|now rewrite app_nil_r].
  apply String.eqb_eq in Hl, Hi. subst. contradiction.
Qed.

Lemma merge_edge_nodes (rel : string) (g : Graph) (p : nat * nat) :
  g_nodes (merge_edge rel g p) = g_nodes g.
Proof.
  unfold merge_edge. destruct p as [s d].
  now destruct (existsb (edge_between s rel d) (g_edges g)).
Qed.

Lemma merge_edges_nodes (rel : string) (ps : list (nat * nat)) (g : Graph) :
  g_nodes (fold_left (merge_edge rel) ps g) = g_nodes g.
Proof.
  revert g. induction ps as [|p ps IH]; intros g; cbn; [reflexivity|].
  now rewrite IH, merge_edge_nodes.
Qed.

Lemma edge_between_new (s d s' d' u : nat) (rel : string) :
  edge_between s rel d (mkEdge u s' rel d') = (s' =? s) && (d' =? d).
Proof. unfold edge_between. cbn. now rewrite String.eqb_refl, andb_true_r. Qed.

Lemma merge_edge_present (rel : string) (g : Graph) (s d : nat) :
  existsb (edge_between s rel d) (g_edges (merge_edge rel g (s, d))) = true.
Proof.
  unfold merge_edge.
  destruct (existsb (edge_between s rel d) (g_edges g)) eqn:Hex; [exact Hex|].
  cbn. rewrite existsb_app. cbn.
  now rewrite edge_between_new, !Nat.eqb_refl, orb_true_r.
Qed.

Lemma merge_edge_keeps (rel : string) (g : Graph) (p : nat * nat) (f : Edge -> bool) :
  existsb f (g_edges g) = true ->
  existsb f (g_edges (merge_edge rel g p)) = true.
Proof.
  intros Hex. unfold merge_edge. destruct p as [s d].
  destruct (existsb (edge_between s rel d) (g_edges g)); [exact Hex|].
  cbn. now rewrite existsb_app, Hex.
Qed.

Lemma merge_edges_keep (rel : string) (ps : list (nat * nat)) (g : Graph)
  (f : Edge -> bool) :
  existsb f (g_edges g) = true ->
  existsb f (g_edges (fold_left (merge_edge rel) ps g)) = true.
Proof.
  revert g. induction ps as [|p ps IH]; intros g Hex; cbn; [exact Hex|].
  apply IH. now apply merge_edge_keeps.
Qed.

Lemma merge_edges_present (rel : string) (ps : list (nat * nat)) (g : Graph)
  (s d : nat) :
  In (s, d) ps ->
  existsb (edge_between s rel d) (g_edges (fold_left (merge_edge rel) ps g)) = true.
Proof.
  revert g. induction ps as [|p ps IH]; intros g Hin; [destruct Hin|].
  cbn. destruct Hin as [->|Hin]; [|now apply IH].
  apply merge_edges_keep, merge_edge_present.
Qed.

(** Merging edges that are all there changes nothing. *)
Lemma merge_edges_noop (rel : string) (ps : list (nat * nat)) (g : Graph) :
  (forall s d, In (s, d) ps -> existsb (edge_between s rel d) (g_edges g) = true) ->
  fold_left (merge_edge rel) ps g = g.
Proof.
  induction ps as [|[s d] ps IH]; intros Hall; cbn [fold_left]; [reflexivity|].
  replace (merge_edge rel g (s, d)) with g
    by (unfold merge_edge; now rewrite (Hall s d) by now left).
  apply IH. intros s' d' Hin. apply Hall. now right.
Qed.

(** Every edge of the merged graph was there or has the merged type
    and joins one of the bound pairs. *)
Lemma merge_edges_new (rel : string) (ps : list (nat * nat)) (g : Graph) (e : Edge) :
  In e (g_edges (fold_left (merge_edge rel) ps g)) ->
  In e (g_edges g) \/ (relation e = rel /\ In (e_src e, e_dst e) ps).
Proof.
  revert g. induction ps as [|[s d] ps IH]; intros g Hin; cbn in Hin; [now left|].
  apply IH in Hin. destruct Hin as [Hin|[Hr Hp]]; [|right; split; [exact Hr|now right]].
  unfold merge_edge in Hin.
  destruct (existsb (edge_between s rel d) (g_edges g)); [now left|].
  cbn in Hin. apply in_app_or in Hin. destruct Hin as [Hin|[<-|[]]]; [now left|].
  right. split; [reflexivity|now left].
Qed.

(** [merge_triplet] run a second time finds everything in place. *)
Lemma merge_triplet_idempotent (l1 l2 rel subj obj : string) (g : Graph) :
  merge_triplet l1 l2 rel subj obj (merge_triplet l1 l2 rel subj obj g)
  = merge_triplet l1 l2 rel subj obj g.
Proof.
  unfold merge_triplet.
  destruct (merge_node l1 subj g) as [g1 n1s] eqn:H1.
  destruct (merge_node l2 obj g1) as [g2 n2s] eqn:H2.
  destruct (merge_node_bound l1 subj g) as [Hn1 Hne1].
  destruct (merge_node_bound l2 obj g1) as [Hn2 Hne2].
  rewrite H1 in Hn1, Hne1. rewrite H2 in Hn2, Hne2. cbn in Hn1, Hne1, Hn2, Hne2.
  pose proof (merge_node_keeps_matches l2 obj l1 subj g1 Hne1) as Hk.
  rewrite H2 in Hk. cbn in Hk.
  set (g3 := fold_left (merge_edge rel) (list_prod n1s n2s) g2).
  assert (Hnodes : g_nodes g3 = g_nodes g2) by apply merge_edges_nodes.
  rewrite (merge_node_found l1 subj g3) by (rewrite Hnodes, Hk; exact Hne1).
  rewrite (merge_node_found l2 obj g3) by (rewrite Hnodes; exact Hne2).
  rewrite Hnodes, Hk, <- Hn1, <- Hn2.
  apply merge_edges_noop. intros s d Hin. now apply merge_edges_present.
Qed.

(** ** No duplicates *)

Lemma filter_length_le {A} (f p : A -> bool) (xs : list A) :
  List.length (filter f (filter p xs)) <= List.length (filter f xs).
Proof.
  induction xs as [|x xs IH]; cbn; [lia|].
  destruct (p x), (f x) eqn:Hf; cbn; rewrite ?Hf; cbn; lia.
Qed.

Lemma existsb_false_filter {A} (f : A -> bool) (xs : list A) :
  existsb f xs = false -> filter f xs = [].
Proof.
  induction xs as [|x xs IH]; cbn; [reflexivity|].
  destruct (f x); cbn; [discriminate|exact IH].
Qed.

Lemma merge_node_count (l id l' id' : string) (g : Graph) :
  List.length (filter (node_matches l' id') (g_nodes g)) <= 1 ->
  List.length (filter (node_matches l' id') (g_nodes (fst (merge_node l id g)))) <= 1.
Proof.
  intros Hle. unfold merge_node.
  destruct (filter (node_matches l id) (g_nodes g)) as [|n ns] eqn:Hf;
    [|exact Hle].
  cbn. rewrite filter_app, length_app. cbn. rewrite node_matches_new.
  destruct (String.eqb l l') eqn:Hl; [|cbn; lia].
  destruct (String.eqb id id') eqn:Hi; [|cbn; lia].
  apply String.eqb_eq in Hl, Hi. subst. rewrite Hf. cbn. lia.
Qed.

Lemma merge_edge_count (rel rel' : string) (g : Graph) (p : nat * nat) (s d : nat) :
  List.length (filter (edge_between s rel' d) (g_edges g)) <= 1 ->
  List.length (filter (edge_between s rel' d) (g_edges (merge_edge rel g p))) <= 1.
Proof.
  intros Hle. unfold merge_edge. destruct p as [s' d'].
  destruct (existsb (edge_between s' rel d') (g_edges g)) eqn:Hex; [exact Hle|].
  cbn. rewrite filter_app, length_app. cbn.
  destruct (edge_between s rel' d (mkEdge (g_next_edge g) s' rel d')) eqn:Hb;
    [|cbn; lia].
  unfold edge_between in Hb. cbn in Hb.
  apply andb_prop in Hb. destruct Hb as [Hb Hd].
  apply andb_prop in Hb. destruct Hb as [Hs Hr].
  apply Nat.eqb_eq in Hs, Hd. apply String.eqb_eq in Hr. subst.
  rewrite (existsb_false_filter _ _ Hex). cbn. lia.
Qed.

Lemma merge_edges_count (rel rel' : string) (ps : list (nat * nat)) (g : Graph)
  (s d : nat) :
  List.length (filter (edge_between s rel' d) (g_edges g)) <= 1 ->
  List.length (filter (edge_between s rel' d)
                 (g_edges (fold_left (merge_edge rel) ps g))) <= 1.
Proof.
  revert g. induction ps as [|p ps IH]; intros g Hle; cbn [fold_left]; [exact Hle|].
  apply IH. now apply merge_edge_count.
Qed.

Lemma merge_triplet_no_duplicates (l1 l2 rel subj obj : string) (g : Graph) :
  no_duplicates g -> no_duplicates (merge_triplet l1 l2 rel subj obj g).
Proof.
  intros [Hn He]. unfold merge_triplet.
  destruct (merge_node l1 subj g) as [g1 n1s] eqn:H1.
  destruct (merge_node l2 obj g1) as [g2 n2s] eqn:H2.
  assert (E1 : g1 = fst (merge_node l1 subj g)) by now rewrite H1.
  assert (E2 : g2 = fst (merge_node l2 obj g1)) by now rewrite H2.
  split.
  - intros l id. rewrite merge_edges_nodes, E2.
    apply merge_node_count. rewrite E1. apply merge_node_count, Hn.
  - intros s rel' d. apply merge_edges_count.
    rewrite E2, merge_node_edges, E1, merge_node_edges. apply He.
Qed.

(** Every statement the driver can send keeps a graph free of
    duplicates, so every graph built from [empty] through the driver
    is free of them. *)
Lemma run_no_duplicates (q : Statement) (ps : Params) (g : Graph) :
  no_duplicates g -> no_duplicates (snd (run q ps g)).
Proof.
  intros Hg. pose proof Hg as [Hn He].
  destruct q; cbn.
  - unfold create_index. destruct (has_index label "id" g); exact Hg.
  - exact Hg.
  - destruct (str_param "subj" ps); exact Hg.
  - destruct (param "subjs" ps) as [[|]|]; exact Hg.
  - destruct (str_param "subj" ps), (str_param "obj" ps); cbn; try exact Hg.
    now apply merge_triplet_no_duplicates.
  - destruct (str_param "subj" ps), (str_param "obj" ps); cbn; try exact Hg.
    split; [exact Hn|]. intros x y z. cbn.
    etransitivity; [apply filter_length_le|apply He].
  - destruct (str_param "entity" ps); cbn; try exact Hg.
    split; cbn.
    + intros l id. etransitivity; [apply filter_length_le|apply Hn].
    + intros x y z. etransitivity; [apply filter_length_le|apply He].
  - destruct (str_param "entity" ps); exact Hg.
Qed.

Lemma empty_no_duplicates : no_duplicates empty.
Proof. split; intros; cbn; lia. Qed.

(** ** The driver on a FalkorDB graph *)

Lemma upsert_triplet_graph (self : Driver) (subj rel obj : string) (w : World Graph) :
  upsert_triplet self subj rel obj w
  = (inr tt,
     mkWorld
       (merge_triplet (_node_label self) (_node_label self)
          (PyStr.upper (PyStr.replace " " "_" rel)) subj obj (w_store w))
       (w_warnings w)
       (w_sent w
        ++ [(MergeTriplet (_node_label self) (_node_label self)
               (PyStr.upper (PyStr.replace " " "_" rel)),
             [("subj", VStr subj); ("obj", VStr obj)])])).
Proof. reflexivity. Qed.

(** On FalkorDB [check_edges] is true whatever the graph: the count
    comes back as a row, and [delete] stops after removing the edge. *)
Lemma check_edges_graph (self : Driver) (entity : string) (w : World Graph) :
  check_edges self entity w
  = (inr true,
     mkWorld (w_store w) (w_warnings w)
       (w_sent w ++ [(CountIncident (_node_label self), [("entity", VStr entity)])])).
Proof. reflexivity. Qed.

Lemma delete_graph (self : Driver) (subj rel obj : string) (w : World Graph) :
  delete self subj rel obj w
  = (inr tt,
     mkWorld
       (FalkorDB.delete_rel (_node_label self)
          (PyStr.upper (PyStr.replace " " "_" rel)) subj obj (w_store w))
       (w_warnings w)
       (w_sent w
        ++ [(DeleteRel (_node_label self) (PyStr.upper (PyStr.replace " " "_" rel)),
             [("subj", VStr subj); ("obj", VStr obj)]);
            (CountIncident (_node_label self), [("entity", VStr subj)]);
            (CountIncident (_node_label self), [("entity", VStr obj)])])).
Proof.
  unfold delete, FalkorDBGraphStoreDriver.delete_rel, bind, driver_query. cbn.
  now rewrite <- !app_assoc.
Qed.

(** ** Relation labels *)

Lemma replace_space_upper (rel : string) :
  PyStr.upper (PyStr.replace " " "_" rel) = normalized_label rel.
Proof.
  unfold PyStr.replace.
  induction rel as [|c rel IH]; [reflexivity|].
  cbn [PyStr.replace_go prefix normalized_label].
  unfold normalized_char.
  destruct (ascii_dec " " c) as [<-|Hc].
  - replace (prefix EmptyString rel) with true by now destruct rel.
    cbn. now rewrite <- IH.
  - cbn [PyStr.upper]. rewrite IH.
    destruct (Ascii.eqb c " ") eqn:Heq; [|reflexivity].
    apply Ascii.eqb_eq in Heq. now subst.
Qed.

Lemma normalized_char_clean (c : ascii) :
  is_space (normalized_char c) || PyStr.is_lower (normalized_char c) = false.
Proof. destruct c as [[] [] [] [] [] [] [] []]; reflexivity. Qed.

Lemma normalized_label_clean (rel : string) :
  PyStr.has_char (fun c => is_space c || PyStr.is_lower c) (normalized_label rel)
  = false.
Proof.
  induction rel as [|c rel IH]; [reflexivity|].
  cbn [normalized_label PyStr.has_char]. now rewrite normalized_char_clean, IH.
Qed.

(** ** What [merge_triplet] leaves in the graph *)

Lemma filter_nonempty_in {A} (f : A -> bool) (xs : list A) :
  filter f xs <> [] -> exists x, In x (filter f xs).
Proof. destruct (filter f xs) as [|x ?]; [contradiction|]. exists x. now left. Qed.

Lemma merge_triplet_edge (l1 l2 rel subj obj : string) (g : Graph) :
  exists e n1 n2,
    In e (g_edges (merge_triplet l1 l2 rel subj obj g))
    /\ In n1 (g_nodes (merge_triplet l1 l2 rel subj obj g))
    /\ In n2 (g_nodes (merge_triplet l1 l2 rel subj obj g))
    /\ e_src e = n_uid n1 /\ e_dst e = n_uid n2
    /\ node_matches l1 subj n1 = true
    /\ node_matches l2 obj n2 = true
    /\ relation e = rel.
Proof.
  unfold merge_triplet.
  destruct (merge_node l1 subj g) as [g1 n1s] eqn:H1.
  destruct (merge_node l2 obj g1) as [g2 n2s] eqn:H2.
  destruct (merge_node_bound l1 subj g) as [Hn1 Hne1].
  destruct (merge_node_bound l2 obj g1) as [Hn2 Hne2].
  rewrite H1 in Hn1, Hne1. rewrite H2 in Hn2, Hne2. cbn in Hn1, Hne1, Hn2, Hne2.
  pose proof (merge_node_keeps_matches l2 obj l1 subj g1 Hne1) as Hk.
  rewrite H2 in Hk. cbn in Hk.
  destruct (filter_nonempty_in _ _ Hne1) as [n1 Hin1].
  destruct (filter_nonempty_in _ _ Hne2) as [n2 Hin2].
  assert (Hp : In (n_uid n1, n_uid n2) (list_prod n1s n2s)).
  { apply in_prod; subst n1s n2s; now apply in_map. }
  pose proof (merge_edges_present rel _ g2 _ _ Hp) as Hex.
  apply existsb_exists in Hex. destruct Hex as (e & Hine & Hb).
  unfold edge_between in Hb.
  apply andb_prop in Hb. destruct Hb as [Hb Hd].
  apply andb_prop in Hb. destruct Hb as [Hs Hr].
  apply Nat.eqb_eq in Hs, Hd. apply String.eqb_eq in Hr.
  rewrite <- Hk in Hin1.
  apply filter_In in Hin1, Hin2.
  exists e, n1, n2. rewrite merge_edges_nodes. tauto.
Qed.

Lemma merge_triplet_new_edges (l1 l2 rel subj obj : string) (g : Graph) (e : Edge) :
  In e (g_edges (merge_triplet l1 l2 rel subj obj g)) ->
  In e (g_edges g) \/ relation e = rel.
Proof.
  unfold merge_triplet.
  destruct (merge_node l1 subj g) as [g1 n1s] eqn:H1.
  destruct (merge_node l2 obj g1) as [g2 n2s] eqn:H2.
  intros Hin. apply merge_edges_new in Hin.
  destruct Hin as [Hin|[Hr _]]; [left|now right].
  replace g2 with (fst (merge_node l2 obj g1)) in Hin by now rewrite H2.
  rewrite merge_node_edges in Hin.
  replace g1 with (fst (merge_node l1 subj g)) in Hin by now rewrite H1.
  now rewrite merge_node_edges in Hin.
Qed.

(** ** The claims *)

(** C9. Called without subjects, [None] or the empty list,
    [get_rel_map] returns the empty mapping and leaves the world as it
    was, whatever the backing store, the depth and the limit: the
    store is in the state it had and no statement was sent. *)
Theorem get_rel_map_without_subjects
  (B : Type) (HB : Backend B) (self : Driver) (depth limit : Z) (w : World B) :
  get_rel_map self None depth limit w = (inr [], w)
  /\ get_rel_map self (Some []) depth limit w = (inr [], w).
Proof. split; reflexivity. Qed.

(** C7. [upsert_triplet] stores the relation label with every space
    replaced by an underscore and in upper case: the graph then holds
    an edge of that type from a node with id [subj] to a node with id
    [obj], every edge that was not there before has that type, and
    the type has neither a space nor a lower-case letter.  For
    [upsert_triplet("x", "has parent", "y")] on the empty graph the
    one edge has type HAS_PARENT. *)
Theorem upsert_triplet_normalizes_relation
  (self : Driver) (subj rel obj : string) (w : World Graph) :
  let stored := PyStr.upper (PyStr.replace " " "_" rel) in
  let g' := w_store (snd (upsert_triplet self subj rel obj w)) in
  stored = normalized_label rel
  /\ PyStr.has_char (fun c => is_space c || PyStr.is_lower c) stored = false
  /\ (exists e n1 n2,
        In e (g_edges g') /\ In n1 (g_nodes g') /\ In n2 (g_nodes g')
        /\ e_src e = n_uid n1 /\ e_dst e = n_uid n2
        /\ node_matches (_node_label self) subj n1 = true
        /\ node_matches (_node_label self) obj n2 = true
        /\ relation e = stored)
  /\ (forall e, In e (g_edges g') -> In e (g_edges (w_store w)) \/ relation e = stored)
  /\ g_edges (w_store (snd (upsert_triplet entity_driver "x" "has parent" "y"
                              (world empty))))
     = [mkEdge 0 0 "HAS_PARENT" 1].
Proof.
  cbv zeta. rewrite upsert_triplet_graph. cbn [snd w_store].
  split; [apply replace_space_upper|].
  split; [rewrite replace_space_upper; apply normalized_label_clean|].
  split; [apply merge_triplet_edge|].
  split; [apply merge_triplet_new_edges|reflexivity].
Qed.

Lemma upsert_triplet_normalizes_relation_witness :
  In (mkEdge 0 0 "HAS_PARENT" 1)
    (g_edges (w_store (snd (upsert_triplet entity_driver "x" "has parent" "y"
                              (world empty)))))
  /\ (In (mkEdge 0 0 "HAS_PARENT" 1) (g_edges (w_store (world empty)))
      \/ relation (mkEdge 0 0 "HAS_PARENT" 1)
         = PyStr.upper (PyStr.replace " " "_" "has parent")).
Proof.
  assert (Hin : In (mkEdge 0 0 "HAS_PARENT" 1)
                  (g_edges (w_store (snd (upsert_triplet entity_driver "x"
                                            "has parent" "y" (world empty))))))
    by (left; reflexivity).
  split; [exact Hin|].
  destruct (upsert_triplet_normalizes_relation entity_driver "x" "has parent" "y"
              (world empty)) as (_ & _ & _ & Hnew & _).
  exact (Hnew _ Hin).
Defined.

Lemma uid_matches_node (g : Graph) (l id : string) (n : Node) :
  In n (g_nodes g) -> node_matches l id n = true ->
  uid_matches g l id (n_uid n) = true.
Proof.
  intros Hin Hm. unfold uid_matches. apply existsb_exists.
  exists n. now rewrite Nat.eqb_refl, Hm.
Qed.

(** On any backing store [upsert_triplet] sends one statement and
    [delete] begins with one, both with the relation label in the
    same normal form. *)
Lemma upsert_triplet_sent
  (B : Type) (HB : Backend B) (self : Driver) (subj rel obj : string) (w : World B) :
  w_sent (snd (upsert_triplet self subj rel obj w))
  = w_sent w
    ++ [(MergeTriplet (_node_label self) (_node_label self) (normalized_label rel),
         [("subj", VStr subj); ("obj", VStr obj)])].
Proof.
  unfold upsert_triplet, bind, driver_query. rewrite replace_space_upper.
  now destruct (exec _ _ (w_store w)) as [[e|rs] b].
Qed.

Lemma delete_sent
  (B : Type) (HB : Backend B) (self : Driver) (subj rel obj : string) (w : World B) :
  exists rest,
    w_sent (snd (delete self subj rel obj w))
    = w_sent w
      ++ (DeleteRel (_node_label self) (normalized_label rel),
          [("subj", VStr subj); ("obj", VStr obj)]) :: rest.
Proof.
  unfold delete, FalkorDBGraphStoreDriver.delete_rel, check_edges, delete_entity,
    bind, driver_query, ret.
  rewrite replace_space_upper. cbn.
  repeat match goal with
         | |- context [exec ?q ?ps ?b] =>
             destruct (exec q ps b) as [[?|[|? ?]] ?]; cbn
         end;
    rewrite <- ?app_assoc; cbn; eexists; reflexivity.
Qed.

(** C10. [delete] puts the relation label into the same normal form
    as [upsert_triplet], spaces to underscores and then upper case,
    before it matches the edge: on any store the two statements carry
    the same edge type, and on a FalkorDB graph the edge that
    [upsert_triplet(a, r, b)] merged is matched by
    [delete(a, r, b)], which removes the edges of that type from [a]
    to [b] and no other edge. *)
Theorem delete_normalizes_like_upsert_triplet
  (self : Driver) (a r b : string) :
  (forall (B : Type) (HB : Backend B) (w : World B),
      PyStr.upper (PyStr.replace " " "_" r) = normalized_label r
      /\ w_sent (snd (upsert_triplet self a r b w))
         = w_sent w
           ++ [(MergeTriplet (_node_label self) (_node_label self)
                  (normalized_label r),
                [("subj", VStr a); ("obj", VStr b)])]
      /\ exists rest,
          w_sent (snd (delete self a r b w))
          = w_sent w
            ++ (DeleteRel (_node_label self) (normalized_label r),
                [("subj", VStr a); ("obj", VStr b)]) :: rest)
  /\ (forall w : World Graph,
        let g1 := w_store (snd (upsert_triplet self a r b w)) in
        let g2 := w_store (snd (delete self a r b (snd (upsert_triplet self a r b w)))) in
        let hit := edge_matches g1 (_node_label self) (normalized_label r) a b in
        (exists e, In e (g_edges g1) /\ relation e = normalized_label r
                   /\ hit e = true)
        /\ g_edges g2 = filter (fun e => negb (hit e)) (g_edges g1)
        /\ g_nodes g2 = g_nodes g1).
Proof.
  split.
  - intros B HB w. split; [apply replace_space_upper|].
    split; [apply upsert_triplet_sent|apply delete_sent].
  - intros w. cbv zeta. rewrite delete_graph, upsert_triplet_graph.
    cbn [snd w_store]. rewrite replace_space_upper.
    split; [|split; reflexivity].
    destruct (merge_triplet_edge (_node_label self) (_node_label self)
                (normalized_label r) a b (w_store w))
      as (e & n1 & n2 & He & H1 & H2 & Hs & Hd & M1 & M2 & Hr).
    exists e. split; [exact He|]. split; [exact Hr|].
    unfold edge_matches. rewrite Hr, String.eqb_refl, Hs, Hd.
    now rewrite !uid_matches_node.
Qed.

(** C1, on the failing input.  The store holds the one triplet
    [(a, r, b)].  [delete("a", "r", "b")] removes the edge; each of
    the two nodes is then without an edge, and yet [check_edges]
    answers true for it, because the count of zero comes back as a
    row; [delete_entity] is never called and both nodes stay. *)
Theorem delete_last_triplet_leaves_both_nodes :
  let w1 := snd (upsert_triplet entity_driver "a" "r" "b" (world empty)) in
  let w2 := snd (delete entity_driver "a" "r" "b" w1) in
  g_edges (w_store w1) = [mkEdge 0 0 "R" 1]
  /\ g_edges (w_store w2) = []
  /\ count_incident "Entity" "a" (w_store w2) = 0%Z
  /\ count_incident "Entity" "b" (w_store w2) = 0%Z
  /\ fst (check_edges entity_driver "a" w2) = inr true
  /\ fst (check_edges entity_driver "b" w2) = inr true
  /\ g_nodes (w_store w2)
     = [mkNode 0 "Entity" [("id", "a")]; mkNode 1 "Entity" [("id", "b")]]
  /\ w_sent w2
     = [(MergeTriplet "Entity" "Entity" "R", [("subj", VStr "a"); ("obj", VStr "b")]);
        (DeleteRel "Entity" "R", [("subj", VStr "a"); ("obj", VStr "b")]);
        (CountIncident "Entity", [("entity", VStr "a")]);
        (CountIncident "Entity", [("entity", VStr "b")])].
Proof. cbv zeta. repeat split; reflexivity. Qed.

(** On a FalkorDB graph [delete] never removes a node, whatever the
    graph and the triplet. *)
Lemma delete_keeps_every_node (self : Driver) (subj rel obj : string) (w : World Graph) :
  g_nodes (w_store (snd (delete self subj rel obj w))) = g_nodes (w_store w).
Proof. now rewrite delete_graph. Qed.

(** C6, as stated, fails: [upsert_node("a")] on the empty graph leaves
    two nodes, one with id [a] and one with the empty id, and its one
    edge runs from the first to the second; no edge starts and ends
    in the same node. *)
Lemma upsert_node_edge_is_not_a_loop :
  let g := w_store (snd (upsert_node entity_driver "a" (world empty))) in
  g_nodes g = [mkNode 0 "Entity" [("id", "a")]; mkNode 1 "Entity" [("id", EmptyString)]]
  /\ g_edges g = [mkEdge 0 0 EmptyString 1]
  /\ forall e, In e (g_edges g) -> e_src e <> e_dst e.
Proof.
  cbv zeta. split; [reflexivity|]. split; [reflexivity|].
  intros e [<-|[]]. discriminate.
Qed.

(** C6, amended.  [upsert_node(node_id)] is
    [upsert_triplet] with [node_id], the empty relation and the empty
    object, followed by [return node_id]:
    one merge statement with the empty relation type, the subject
    [node_id] and the empty string as object.  On a FalkorDB graph it
    returns [node_id] and leaves an edge of the empty type from a
    node with id [node_id] to a node with the empty id; the two are
    one node only when [node_id] is itself empty. *)
Theorem upsert_node_merges_edge_to_empty_id (self : Driver) (node_id : string) :
  (forall (B : Type) (HB : Backend B) (w : World B),
      upsert_node self node_id w
      = (match fst (upsert_triplet self node_id EmptyString EmptyString w) with
         | inr _ => inr node_id
         | inl e => inl e
         end,
         snd (upsert_triplet self node_id EmptyString EmptyString w))
      /\ w_sent (snd (upsert_node self node_id w))
         = w_sent w
           ++ [(MergeTriplet (_node_label self) (_node_label self) EmptyString,
                [("subj", VStr node_id); ("obj", VStr EmptyString)])])
  /\ (forall w : World Graph,
        let g' := w_store (snd (upsert_node self node_id w)) in
        fst (upsert_node self node_id w) = inr node_id
        /\ exists e n1 n2,
            In e (g_edges g') /\ In n1 (g_nodes g') /\ In n2 (g_nodes g')
            /\ e_src e = n_uid n1 /\ e_dst e = n_uid n2
            /\ node_matches (_node_label self) node_id n1 = true
            /\ node_matches (_node_label self) EmptyString n2 = true
            /\ relation e = EmptyString
            /\ (node_id <> EmptyString -> n1 <> n2)).
Proof.
  split.
  - intros B HB w. split.
    + unfold upsert_node, upsert_triplet, bind, driver_query, ret.
      now destruct (exec _ _ (w_store w)) as [[e|rs] b].
    + unfold upsert_node, upsert_triplet, bind, driver_query, ret.
      now destruct (exec _ _ (w_store w)) as [[e|rs] b].
  - intros w. cbv zeta. split; [reflexivity|].
    unfold upsert_node, bind. rewrite upsert_triplet_graph. cbn.
    destruct (merge_triplet_edge (_node_label self) (_node_label self)
                EmptyString node_id EmptyString (w_store w))
      as (e & n1 & n2 & He & H1 & H2 & Hs & Hd & M1 & M2 & Hr).
    exists e, n1, n2. repeat (split; [assumption|]).
    intros Hne ->. unfold node_matches in M1, M2.
    apply andb_prop in M1, M2. destruct M1 as [_ M1], M2 as [_ M2].
    destruct (lookup "id" (properties n2)) as [v|]; [|discriminate].
    cbn in M1, M2. apply String.eqb_eq in M1, M2. congruence.
Qed.

Lemma upsert_node_merges_edge_to_empty_id_witness :
  "a" <> EmptyString
  /\ exists e n1 n2,
      In e (g_edges (w_store (snd (upsert_node entity_driver "a" (world empty)))))
      /\ e_src e = n_uid n1 /\ e_dst e = n_uid n2
      /\ node_matches "Entity" "a" n1 = true
      /\ node_matches "Entity" EmptyString n2 = true
      /\ n1 <> n2.
Proof.
  assert (Hne : "a" <> EmptyString) by discriminate.
  split; [exact Hne|].
  destruct (upsert_node_merges_edge_to_empty_id entity_driver "a") as [_ Hgraph].
  destruct (Hgraph (world empty))
    as (_ & e & n1 & n2 & He & _ & _ & Hs & Hd & M1 & M2 & _ & Hdiff).
  exists e, n1, n2. repeat (split; [assumption|]). exact (Hdiff Hne).
Defined.

Lemma filter_single {A} (f : A -> bool) (xs : list A) (x : A) :
  In x (filter f xs) -> List.length (filter f xs) <= 1 -> filter f xs = [x].
Proof.
  destruct (filter f xs) as [|y [|z ys]]; cbn; intros Hin Hle.
  - destruct Hin.
  - destruct Hin as [->|[]]. reflexivity.
  - lia.
Qed.

(** C8, as stated, fails for a store that holds duplicates already:
    from [two_nodes_a], [upsert_triplet("a", "r", "b")] once or twice
    leaves two nodes with id [a] and two edges of type R. *)
Lemma upsert_triplet_keeps_earlier_duplicates :
  let w1 := snd (upsert_triplet entity_driver "a" "r" "b" (world two_nodes_a)) in
  let w2 := snd (upsert_triplet entity_driver "a" "r" "b" w1) in
  w_store w2 = w_store w1
  /\ List.length (filter (node_matches "Entity" "a") (g_nodes (w_store w2))) = 2
  /\ g_edges (w_store w2) = [mkEdge 0 0 "R" 2; mkEdge 1 1 "R" 2].
Proof. cbv zeta. repeat split; reflexivity. Qed.

(** C8, amended.  From any state of the store a second
    [upsert_triplet(a, r, b)] returns like the first and leaves the
    store as the first left it; and when the store was free of
    duplicates, it then holds exactly one node with id [a], one with
    id [b], and exactly one edge of the normalised type of [r] from
    the first to the second. *)
Theorem upsert_triplet_idempotent (self : Driver) (a r b : string) (w : World Graph) :
  let w1 := snd (upsert_triplet self a r b w) in
  let w2 := snd (upsert_triplet self a r b w1) in
  fst (upsert_triplet self a r b w) = inr tt
  /\ fst (upsert_triplet self a r b w1) = inr tt
  /\ w_store w2 = w_store w1
  /\ (no_duplicates (w_store w) ->
      exists na nb e,
        filter (node_matches (_node_label self) a) (g_nodes (w_store w2)) = [na]
        /\ filter (node_matches (_node_label self) b) (g_nodes (w_store w2)) = [nb]
        /\ filter (edge_between (n_uid na) (normalized_label r) (n_uid nb))
             (g_edges (w_store w2)) = [e]).
Proof.
  cbv zeta. rewrite !upsert_triplet_graph. cbn [fst snd w_store].
  rewrite merge_triplet_idempotent, replace_space_upper.
  split; [reflexivity|]. split; [reflexivity|]. split; [reflexivity|].
  intros Hg.
  set (l := _node_label self). set (rel := normalized_label r).
  pose proof (merge_triplet_no_duplicates l l rel a b _ Hg) as [Hn He].
  destruct (merge_triplet_edge l l rel a b (w_store w))
    as (e & n1 & n2 & Hine & H1 & H2 & Hs & Hd & M1 & M2 & Hr).
  exists n1, n2, e. repeat split.
  - apply filter_single; [|apply Hn]. now apply filter_In.
  - apply filter_single; [|apply Hn]. now apply filter_In.
  - apply filter_single; [|apply He]. apply filter_In. split; [exact Hine|].
    unfold edge_between. now rewrite Hs, Hd, Hr, !Nat.eqb_refl, String.eqb_refl.
Qed.

Lemma upsert_triplet_idempotent_witness :
  no_duplicates empty
  /\ exists na nb e,
      filter (node_matches "Entity" "a")
        (g_nodes (w_store (snd (upsert_triplet entity_driver "a" "r" "b"
                                  (snd (upsert_triplet entity_driver "a" "r" "b"
                                          (world empty))))))) = [na]
      /\ filter (node_matches "Entity" "b")
           (g_nodes (w_store (snd (upsert_triplet entity_driver "a" "r" "b"
                                     (snd (upsert_triplet entity_driver "a" "r" "b"
                                             (world empty))))))) = [nb]
      /\ filter (edge_between (n_uid na) (normalized_label "r") (n_uid nb))
           (g_edges (w_store (snd (upsert_triplet entity_driver "a" "r" "b"
                                     (snd (upsert_triplet entity_driver "a" "r" "b"
                                             (world empty))))))) = [e].
Proof.
  split; [exact empty_no_duplicates|].
  destruct (upsert_triplet_idempotent entity_driver "a" "r" "b" (world empty))
    as (_ & _ & _ & Hone).
  exact (Hone empty_no_duplicates).
Defined.

(** C4, as stated, fails: the store holds the path from [a] to [b],
    and [get_rel_map(["a"], 2, 0)] does not raise; it sends the query
    with [LIMIT 0] and returns the empty mapping, where a limit of 30
    returns the path. *)
Lemma get_rel_map_accepts_limit_zero :
  let w1 := snd (upsert_triplet entity_driver "a" "r" "b" (world empty)) in
  get_rel_map entity_driver (Some ["a"]) 2 0 w1
  = (inr [],
     mkWorld (w_store w1) []
       (w_sent w1 ++ [(MatchPaths "Entity" 2 0, [("subjs", VList ["a"])])]))
  /\ fst (get_rel_map entity_driver (Some ["a"]) 2 30 w1) = inr [("a", [["R"; "b"]])].
Proof. cbv zeta. split; reflexivity. Qed.

Lemma get_rel_map_sent
  (B : Type) (HB : Backend B) (self : Driver) (s : string) (subjs : list string)
  (depth limit : Z) (w : World B) :
  w_sent (snd (get_rel_map self (Some (s :: subjs)) depth limit w))
  = w_sent w
    ++ [(MatchPaths (_node_label self) depth limit, [("subjs", VList (s :: subjs))])].
Proof.
  unfold get_rel_map, query, bind, driver_query.
  destruct (exec _ _ (w_store w)) as [[e|[|row rows]] b]; try reflexivity.
  cbv beta iota. now destruct (add_records [] (row :: rows)).
Qed.

(** C4, amended.  [get_rel_map] checks neither bound: with subjects
    to look for it sends one path query that carries [depth] and
    [limit] as they were given, whatever their value; a limit of 0
    with a depth that is not negative makes FalkorDB answer with no
    row, and [get_rel_map] returns the empty mapping. *)
Theorem get_rel_map_sends_bounds_as_given
  (self : Driver) (s : string) (subjs : list string) (depth : Z) :
  (forall (B : Type) (HB : Backend B) (limit : Z) (w : World B),
      w_sent (snd (get_rel_map self (Some (s :: subjs)) depth limit w))
      = w_sent w
        ++ [(MatchPaths (_node_label self) depth limit,
             [("subjs", VList (s :: subjs))])])
  /\ (forall w : World Graph,
        (0 <= depth)%Z ->
        get_rel_map self (Some (s :: subjs)) depth 0 w
        = (inr [],
           mkWorld (w_store w) (w_warnings w)
             (w_sent w
              ++ [(MatchPaths (_node_label self) depth 0,
                   [("subjs", VList (s :: subjs))])]))).
Proof.
  split; [intros; apply get_rel_map_sent|].
  intros w Hd. unfold get_rel_map, query, bind, driver_query. cbn.
  unfold match_paths. apply Z.ltb_ge in Hd. now rewrite Hd.
Qed.

Lemma get_rel_map_sends_bounds_as_given_witness :
  (0 <= 2)%Z
  /\ fst (get_rel_map entity_driver (Some ["a"; "b"]) 2 0 (world empty)) = inr [].
Proof.
  split; [lia|].
  destruct (get_rel_map_sends_bounds_as_given entity_driver "a" ["b"] 2) as [_ Hzero].
  rewrite (Hzero (world empty)); [reflexivity|lia].
Defined.

(** ** Bootstrap *)

Lemma count_indexes_positive (l a : string) (g : Graph) :
  (0 <? count_indexes l a g)%Z = has_index l a g.
Proof.
  unfold count_indexes, has_index.
  induction (g_indexes g) as [|row ix IH]; [reflexivity|].
  cbn [filter existsb].
  destruct (String.eqb (fst row) l && existsb (String.eqb a) (snd row)); cbn [orb].
  - cbn [List.length]. apply Z.ltb_lt. lia.
  - exact IH.
Qed.

Lemma has_index_add_index (l a : string) (ix : list (string * list string)) :
  existsb (fun row => String.eqb (fst row) l && existsb (String.eqb a) (snd row))
    (add_index l a ix) = true.
Proof.
  induction ix as [|[l0 attrs] ix IH]; cbn.
  - now rewrite !String.eqb_refl.
  - destruct (String.eqb l0 l) eqn:Hl; cbn; rewrite Hl; cbn.
    + now rewrite existsb_app; cbn; rewrite String.eqb_refl, orb_true_r.
    + exact IH.
Qed.

Lemma create_index_fresh (l : string) (g : Graph) :
  has_index l "id" g = false ->
  exists g', create_index l g = (inr [], g') /\ has_index l "id" g' = true.
Proof.
  intros Hix. unfold create_index. rewrite Hix.
  eexists. split; [reflexivity|]. apply has_index_add_index.
Qed.

Lemma init_on_indexed_graph (url database l : string) (w : World Graph) :
  has_index l "id" (w_store w) = true ->
  init url database l w
  = (inr (mkDriver l database EmptyString (MatchOutgoing l)),
     mkWorld (w_store w) (w_warnings w) (w_sent w ++ [(CountIndexes l "id", [])])).
Proof.
  intros Hix.
  unfold init, try_except, create_id_index, index_exists, bind, driver_query.
  cbn. now rewrite count_indexes_positive, Hix.
Qed.

Lemma init_on_graph (url database l : string) (w : World Graph) :
  exists w1,
    init url database l w
    = (inr (mkDriver l database EmptyString (MatchOutgoing l)), w1)
    /\ has_index l "id" (w_store w1) = true
    /\ w_warnings w1 = w_warnings w.
Proof.
  destruct (has_index l "id" (w_store w)) eqn:Hix.
  - eexists. rewrite (init_on_indexed_graph _ _ _ _ Hix). now cbn.
  - unfold init, try_except, create_id_index, index_exists, bind, driver_query.
    cbn -[create_index]. rewrite count_indexes_positive, Hix.
    destruct (create_index_fresh l (w_store w) Hix) as (g' & Hc & Hg').
    cbn -[create_index]. rewrite Hc.
    eexists. split; [reflexivity|]. split; [exact Hg'|reflexivity].
Qed.

(** C5.  When the [try] of [__init__], the look-up of the index and
    its creation, raises the "already indexed" error, [__init__] logs
    one warning and returns the driver; when it raises anything else,
    [__init__] raises that, and nothing is logged.  Creating the index
    raises inside that [try].  FalkorDB answers the creation of an
    index that exists with an error of the absorbed kind; and on a
    FalkorDB graph a construction returns and leaves the graph
    indexed, and a second construction on it returns as well. *)
Theorem init_absorbs_already_indexed (url database node_label : string) :
  let driver := mkDriver node_label database EmptyString (MatchOutgoing node_label) in
  (forall (B : Type) (HB : Backend B) (w w' : World B) (e : Exn),
      create_id_index node_label w = (inl e, w') ->
      init url database node_label w
      = if already_indexed e
        then (inr driver,
              mkWorld (w_store w')
                (w_warnings w'
                 ++ [("Index on 'id' already exists: " ++ exn_str e)%string])
                (w_sent w'))
        else (inl e, w'))
  /\ (forall (B : Type) (HB : Backend B) (w : World B)
             (n : Z) (rest : list Cell) (rows : ResultSet) (b1 b2 : B) (e : Exn),
        exec (CountIndexes node_label "id") [] (w_store w)
        = (inr ((CInt n :: rest) :: rows), b1) ->
        (n <= 0)%Z ->
        exec (CreateIndex node_label) [] b1 = (inl e, b2) ->
        create_id_index node_label w
        = (inl e,
           mkWorld b2 (w_warnings w)
             (w_sent w ++ [(CountIndexes node_label "id", []);
                           (CreateIndex node_label, [])])))
  /\ (forall g : Graph,
        has_index node_label "id" g = true ->
        exists msg,
          run (CreateIndex node_label) [] g = (inl (ResponseError msg), g)
          /\ already_indexed (ResponseError msg) = true)
  /\ (forall w : World Graph,
        exists w1,
          init url database node_label w = (inr driver, w1)
          /\ has_index node_label "id" (w_store w1) = true
          /\ init url database node_label w1
             = (inr driver,
                mkWorld (w_store w1) (w_warnings w1)
                  (w_sent w1 ++ [(CountIndexes node_label "id", [])]))).
Proof.
  cbv zeta. repeat split.
  - intros B HB w w' e Htry. unfold init, try_except, bind. rewrite Htry.
    destruct e as [msg|cls msg|msg]; cbn; try reflexivity.
    now destruct (PyStr.contains "already indexed" msg).
  - intros B HB w n rest rows b1 b2 e Hcount Hn Hcreate.
    unfold create_id_index, index_exists, bind, driver_query.
    rewrite Hcount. cbn.
    replace (0 <? n)%Z with false by (symmetry; apply Z.ltb_ge; exact Hn).
    cbn. rewrite Hcreate. now rewrite <- app_assoc.
  - intros g Hix. cbn. unfold create_index. rewrite Hix.
    eexists. split; reflexivity.
  - intros w. destruct (init_on_graph url database node_label w) as (w1 & H1 & Hix & _).
    exists w1. split; [exact H1|]. split; [exact Hix|].
    now apply init_on_indexed_graph.
Qed.

Lemma init_absorbs_already_indexed_witness :
  init "redis://localhost:6379" "falkor" "Entity" (mkWorld Racing [] [])
  = (inr entity_driver,
     mkWorld Racing
       ["Index on 'id' already exists: Attribute 'id' is already indexed"]
       [(CountIndexes "Entity" "id", []); (CreateIndex "Entity", [])])
  /\ init "redis://localhost:6379" "falkor" "Entity" (mkWorld Down [] [])
     = (inl (OtherError "ConnectionError" "Connection refused"),
        mkWorld Down [] [(CountIndexes "Entity" "id", [])]).
Proof.
  destruct (init_absorbs_already_indexed "redis://localhost:6379" "falkor" "Entity")
    as (Hraise & Hcreate & _ & _).
  split.
  - rewrite (Hraise Faulty faulty_backend (mkWorld Racing [] [])
               (mkWorld Racing [] [(CountIndexes "Entity" "id", []);
                                   (CreateIndex "Entity", [])])
               (ResponseError "Attribute 'id' is already indexed")).
    + reflexivity.
    + apply (Hcreate Faulty faulty_backend (mkWorld Racing [] []) 0%Z [] [] Racing Racing).
      * reflexivity.
      * lia.
      * reflexivity.
  - rewrite (Hraise Faulty faulty_backend (mkWorld Down [] [])
               (mkWorld Down [] [(CountIndexes "Entity" "id", [])])
               (OtherError "ConnectionError" "Connection refused")).
    + reflexivity.
    + reflexivity.
Defined.

End GraphStoreProofs.

(* ================================================================== *)
(** * Further properties of the retrying [run] *)
(* ================================================================== *)

Module AudioTranscriptionMore.
Import BaseAudioTranscriptionDriver AudioTranscriptionSpec.

Section Run.
Context {E Audio Text : Type}.
Variable try_run : Audio -> option (list string) -> E -> (Exn + Text) * E.
Variable audio : Audio.
Variable prompts : option (list string).

(** An attempt that returns publishes the start event, calls
    [try_run], publishes the finish event and leaves the loop. *)
Lemma run_loop_returning_attempt (budget : nat) (w : World E) (r : Text) (p' : E) :
  try_run audio prompts (provider w) = (inr r, p') ->
  run_loop try_run (S budget) audio prompts w
  = (inr r,
     mkWorld p'
       (trace w ++ [Published StartAudioTranscriptionEvent; Attempted;
                    Published FinishAudioTranscriptionEvent])).
Proof.
  intros Htry. cbn [run_loop]. unfold bind at 1, with_attempt, bind, before_run,
    after_run, publish_event, call_try_run, ret. cbn. rewrite Htry. cbn.
  now rewrite <- !app_assoc.
Qed.

Lemma run_loop_observed (budget : nat) (w : World E) :
  exists t,
    trace (snd (run_loop try_run budget audio prompts w)) = trace w ++ t
    /\ count is_attempt t <= budget
    /\ count is_start t = count is_attempt t
    /\ match fst (run_loop try_run budget audio prompts w) with
       | inr _ =>
           count is_finish t = 1
           /\ exists t', t = t' ++ [Attempted; Published FinishAudioTranscriptionEvent]
       | inl e =>
           e = PlainException "Failed to run audio transcription"
           /\ count is_finish t = 0
           /\ count is_attempt t = budget
       end.
Proof.
  revert w. induction budget as [|budget IH]; intros w.
  - exists []. cbn. rewrite app_nil_r. repeat split; reflexivity.
  - destruct (try_run audio prompts (provider w)) as [[e|r] p'] eqn:Htry.
    + rewrite (AudioTranscriptionProofs.run_loop_failed_attempt _ _ _ _ _ _ _ Htry).
      destruct (IH (mkWorld p' (trace w ++ failed_attempts 1)))
        as (t & Ht & Hle & Hs & Hres).
      exists (failed_attempts 1 ++ t). cbn [trace] in Ht.
      rewrite Ht, <- app_assoc. split; [reflexivity|].
      rewrite !AudioTranscriptionProofs.count_app.
      change (count is_attempt (failed_attempts 1)) with 1.
      change (count is_start (failed_attempts 1)) with 1.
      change (count is_finish (failed_attempts 1)) with 0.
      split; [lia|]. split; [lia|].
      destruct (fst (run_loop try_run budget audio prompts _)).
      * destruct Hres as (-> & Hf & Ha). repeat split; lia.
      * destruct Hres as (Hf & t' & ->). split; [lia|].
        exists (failed_attempts 1 ++ t'). now rewrite <- app_assoc.
    + rewrite (run_loop_returning_attempt _ _ _ _ Htry). cbn [fst snd trace].
      eexists. split; [reflexivity|]. cbn.
      repeat split; try lia.
      now exists [Published StartAudioTranscriptionEvent].
Qed.

(** X1. Whatever [try_run] does, [run] calls it at most
    [max_attempts] times and publishes one start event for each call.
    When [run] returns, exactly one finish event is published and it
    is the last observation, right after the call that returned; when
    [run] raises, it raises the plain exception, no finish event is
    published and the whole budget of calls is spent. *)
Theorem run_observations (self : Driver) (w : World E) :
  exists t,
    trace (snd (run try_run self audio prompts w)) = trace w ++ t
    /\ count is_attempt t <= max_attempts self
    /\ count is_start t = count is_attempt t
    /\ match fst (run try_run self audio prompts w) with
       | inr _ =>
           count is_finish t = 1
           /\ exists t', t = t' ++ [Attempted; Published FinishAudioTranscriptionEvent]
       | inl e =>
           e = PlainException "Failed to run audio transcription"
           /\ count is_finish t = 0
           /\ count is_attempt t = max_attempts self
       end.
Proof. unfold run, retrying. apply run_loop_observed. Qed.

End Run.
End AudioTranscriptionMore.

(* ================================================================== *)
(** * Properties of the schema cache and of the entries *)
(* ================================================================== *)

Module SchemaAndEntriesProofs.
Import FalkorDBGraphStoreDriver SchemaAndEntries SchemaAndEntriesSpec.

Section AnyStore.
Context {B : Type} {HB : TextBackend B}.
Variable py_str : ResultSet -> string.

Lemma schema_text_truthy (np rel : ResultSet) :
  truthy (schema_text py_str np rel) = true.
Proof. reflexivity. Qed.

(** A call of [get_schema] that returns leaves a text in the cache
    that is not empty. *)
Lemma get_schema_returns (self self' : Driver) (refresh : bool) (text : string)
  (s s' : Session B) :
  get_schema py_str self refresh s = (inr (text, self'), s') ->
  schema self' = text /\ truthy text = true.
Proof.
  unfold get_schema.
  destruct (truthy (schema self) && negb refresh) eqn:Hhit.
  - intros [= <- <- <-]. apply andb_prop in Hhit. now split.
  - unfold refresh_schema, bind, query_text, logger_debug, ret.
    destruct (exec_text PropertyKeys (s_store s)) as [[e|np] b1]; [discriminate|].
    cbn. destruct (exec_text RelationshipTypes b1) as [[e|rel] b2]; [discriminate|].
    cbn. intros [= <- <- <-]. split; [reflexivity|apply schema_text_truthy].
Qed.

(** X2. Once [get_schema] has returned a text, every later
    [get_schema()] without [refresh] returns that same text and
    sends nothing, in whatever state the store then is: the cache is
    not refreshed by changes of the store. *)
Theorem get_schema_cache_is_kept (self self' : Driver) (refresh : bool)
  (text : string) (s s' : Session B) :
  get_schema py_str self refresh s = (inr (text, self'), s') ->
  forall later : Session B,
    get_schema py_str self' false later = (inr (text, self'), later).
Proof.
  intros Hret later. apply get_schema_returns in Hret. destruct Hret as [Hs Ht].
  unfold get_schema. now rewrite Hs, Ht.
Qed.

(** X3. A [get_schema] that does not answer from the cache, because
    the cache is empty or [refresh] is set, asks the store for the
    property keys and then for the relationship types.  When the first
    question raises, the second is not asked; when either raises,
    [get_schema] raises the same and logs nothing; when both are
    answered, it returns the text built from the two answers, logs it
    once and has sent the two texts in this order. *)
Theorem get_schema_asks_keys_then_types (self : Driver) (refresh : bool)
  (s : Session B) :
  truthy (schema self) && negb refresh = false ->
  (forall e b1,
      exec_text PropertyKeys (s_store s) = (inl e, b1) ->
      get_schema py_str self refresh s
      = (inl e, mkSession b1 (s_sent s ++ [PropertyKeys]) (s_debug s)))
  /\ (forall np b1 e b2,
        exec_text PropertyKeys (s_store s) = (inr np, b1) ->
        exec_text RelationshipTypes b1 = (inl e, b2) ->
        get_schema py_str self refresh s
        = (inl e,
           mkSession b2 (s_sent s ++ [PropertyKeys; RelationshipTypes]) (s_debug s)))
  /\ (forall np b1 rel b2,
        exec_text PropertyKeys (s_store s) = (inr np, b1) ->
        exec_text RelationshipTypes b1 = (inr rel, b2) ->
        get_schema py_str self refresh s
        = (inr (schema_text py_str np rel,
                with_schema self (schema_text py_str np rel)),
           mkSession b2 (s_sent s ++ [PropertyKeys; RelationshipTypes])
             (s_debug s
              ++ [("get_schema() schema:" ++ nl ++ schema_text py_str np rel)%string]))).
Proof.
  intros Hmiss. unfold get_schema. rewrite Hmiss.
  unfold refresh_schema, bind, query_text, logger_debug, ret.
  repeat split.
  - intros e b1 ->. reflexivity.
  - intros np b1 e b2 ->. cbn. intros ->. now rewrite <- app_assoc.
  - intros np b1 rel b2 ->. cbn. intros ->. now rewrite <- app_assoc.
Qed.

(** X4. [load_entries] never returns an entry.  It returns the empty
    list when the store answers with no row; as soon as the store
    answers with a row it raises [AttributeError], because the
    comprehension reads [id] from the row, which is a list. *)
Theorem load_entries_returns_nothing (self : Driver) (s : Session B) :
  (forall entries s', load_entries self s = (inr entries, s') -> entries = [])
  /\ (forall b,
        exec_text MatchNodes (s_store s) = (inr [], b) ->
        load_entries self s = (inr [], mkSession b (s_sent s ++ [MatchNodes]) (s_debug s)))
  /\ (forall row rows b,
        exec_text MatchNodes (s_store s) = (inr (row :: rows), b) ->
        load_entries self s
        = (inl (OtherError "AttributeError" "'list' object has no attribute 'id'"),
           mkSession b (s_sent s ++ [MatchNodes]) (s_debug s))).
Proof.
  unfold load_entries, bind, query_text.
  destruct (exec_text MatchNodes (s_store s)) as [[e|[|row rows]] b]; cbn;
    repeat split; try discriminate; try congruence.
  - intros entries s' [= <- _]. reflexivity.
  - intros b' [= <-]. reflexivity.
  - intros row' rows' b' [= _ _ <-]. reflexivity.
Qed.

(** X5. [load_entry(node_id)] returns [None] exactly when the store
    answers with no row.  An entry it returns carries the id that was
    asked for and the properties of the node that leads the first
    row; further cells and rows are not read. *)
Theorem load_entry_reads_first_node (self : Driver) (node_id : string) (s : Session B) :
  (forall s',
      load_entry self node_id s = (inr None, s') <->
      (exists b, exec_text (MatchNodeById node_id) (s_store s) = (inr [], b)
                 /\ s' = mkSession b (s_sent s ++ [MatchNodeById node_id]) (s_debug s)))
  /\ (forall entry s',
        load_entry self node_id s = (inr (Some entry), s') ->
        BaseGraphStoreDriver.id entry = node_id
        /\ exists n cells rows b,
            exec_text (MatchNodeById node_id) (s_store s)
            = (inr ((CNode n :: cells) :: rows), b)
            /\ BaseGraphStoreDriver.properties entry = properties n)
  /\ (forall n cells rows b,
        exec_text (MatchNodeById node_id) (s_store s)
        = (inr ((CNode n :: cells) :: rows), b) ->
        load_entry self node_id s
        = (inr (Some (BaseGraphStoreDriver.mkEntry node_id (properties n))),
           mkSession b (s_sent s ++ [MatchNodeById node_id]) (s_debug s))).
Proof.
  unfold load_entry, bind, query_text.
  destruct (exec_text (MatchNodeById node_id) (s_store s)) as [[e|result] b]; cbn.
  { split; [|split].
    - intros s'. split; [discriminate|]. intros (b' & Hb & _). discriminate.
    - intros entry s' Hret. discriminate.
    - intros n cells rows b' Hb. discriminate. }
  destruct result as [|[|c cells] rows]; cbn.
  { split; [|split].
    - intros s'. split.
      + intros [= <-]. exists b. now split.
      + intros (b' & [= <-] & ->). reflexivity.
    - intros entry s' Hret. discriminate.
    - intros n cells rows b' Hb. discriminate. }
  { split; [|split].
    - intros s'. split; [discriminate|]. intros (b' & Hb & _). discriminate.
    - intros entry s' Hret. discriminate.
    - intros n cells rows' b' Hb. discriminate. }
  split; [|split].
  - intros s'. split; [|intros (b' & Hb & _); discriminate].
    destruct c; cbn; discriminate.
  - intros entry s'. destruct c; cbn; try discriminate.
    intros [= <- _]. split; [reflexivity|].
    exists n, cells, rows, b. now split.
  - intros n cells' rows' b' [= -> _ _ <-]. reflexivity.
Qed.

End AnyStore.

Lemma get_schema_cache_is_kept_witness :
  exists text self',
    get_schema tally GraphStoreSpec.entity_driver false (mkSession two_entities [] [])
    = (inr (text, self'),
       mkSession two_entities [PropertyKeys; RelationshipTypes]
         [("get_schema() schema:" ++ nl ++ text)%string])
    /\ get_schema tally self' false (mkSession two_entities [MatchNodes] [])
       = (inr (text, self'), mkSession two_entities [MatchNodes] []).
Proof.
  eexists. eexists. split; [reflexivity|].
  eapply (get_schema_cache_is_kept tally GraphStoreSpec.entity_driver _ false _
            (mkSession two_entities [] [])).
  reflexivity.
Defined.

Lemma get_schema_asks_keys_then_types_witness :
  s_sent (snd (get_schema tally GraphStoreSpec.entity_driver true
                 (mkSession two_entities [] [])))
  = [PropertyKeys; RelationshipTypes].
Proof.
  destruct (get_schema_asks_keys_then_types tally GraphStoreSpec.entity_driver true
              (mkSession two_entities [] []) eq_refl) as (_ & _ & Hboth).
  rewrite (Hboth [[CStr "id"]] two_entities [[CStr "R"]] two_entities eq_refl eq_refl).
  reflexivity.
Defined.

Lemma load_entries_returns_nothing_witness :
  fst (load_entries GraphStoreSpec.entity_driver (mkSession two_entities [] []))
  = inl (OtherError "AttributeError" "'list' object has no attribute 'id'").
Proof.
  destruct (load_entries_returns_nothing GraphStoreSpec.entity_driver
              (mkSession two_entities [] [])) as (_ & _ & Hrow).
  now rewrite (Hrow _ _ two_entities eq_refl).
Defined.

Lemma load_entry_reads_first_node_witness :
  fst (load_entry GraphStoreSpec.entity_driver "a" (mkSession two_entities [] []))
  = inr (Some (BaseGraphStoreDriver.mkEntry "a" [("id", "a")]))
  /\ fst (load_entry GraphStoreSpec.entity_driver "c" (mkSession two_entities [] []))
     = inr None.
Proof.
  split.
  - destruct (load_entry_reads_first_node GraphStoreSpec.entity_driver "a"
                (mkSession two_entities [] [])) as (_ & _ & Hnode).
    now rewrite (Hnode _ [] [] two_entities eq_refl).
  - destruct (load_entry_reads_first_node GraphStoreSpec.entity_driver "c"
                (mkSession two_entities [] [])) as (Hnone & _ & _).
    destruct (Hnone (mkSession two_entities [MatchNodeById "c"] [])) as [_ Hback].
    rewrite Hback; [reflexivity|]. now exists two_entities.
Defined.

End SchemaAndEntriesProofs.

(* ================================================================== *)
(** * Further properties of the graph store driver *)
(* ================================================================== *)

Module GraphStoreMore.
Import FalkorDBGraphStoreDriver FalkorDB GraphStoreSpec GraphStoreMoreSpec.

(** ** Properties kept by every method *)

(** The computation leaves the store with the property it found. *)
Definition keeps (P : Graph -> Prop) {A : Type} (m : M (World Graph) A) : Prop :=
  forall w, P (w_store w) -> P (w_store (snd (m w))).

Section Keeps.
Variable P : Graph -> Prop.
Hypothesis P_statements : statement_invariant P.

Lemma keeps_ret {A} (a : A) : keeps P (ret a).
Proof. intros w Hw. exact Hw. Qed.

Lemma keeps_raise {A} (e : Exn) : keeps P (@raise _ A e).
Proof. intros w Hw. exact Hw. Qed.

Lemma keeps_bind {A C} (m : M (World Graph) A) (k : A -> M (World Graph) C) :
  keeps P m -> (forall a, keeps P (k a)) -> keeps P (bind m k).
Proof.
  intros Hm Hk w Hw. unfold bind. specialize (Hm w Hw).
  destruct (m w) as [[e|a] w']; cbn in *; [exact Hm|].
  now apply Hk.
Qed.

Lemma keeps_try_except {A} (m : M (World Graph) A) (h : Exn -> M (World Graph) A) :
  keeps P m -> (forall e, keeps P (h e)) -> keeps P (try_except m h).
Proof.
  intros Hm Hh w Hw. unfold try_except. specialize (Hm w Hw).
  destruct (m w) as [[e|a] w']; cbn in *; [|exact Hm].
  now apply Hh.
Qed.

Lemma keeps_driver_query (q : Statement) (ps : Params) : keeps P (driver_query q ps).
Proof.
  intros w Hw. unfold driver_query. cbn.
  specialize (P_statements q ps (w_store w) Hw).
  now destruct (run q ps (w_store w)).
Qed.

Lemma keeps_logger_warning (fmt : string) (e : Exn) : keeps P (logger_warning fmt e).
Proof. intros w Hw. exact Hw. Qed.

Lemma keeps_if {A} (b : bool) (m1 m2 : M (World Graph) A) :
  keeps P m1 -> keeps P m2 -> keeps P (if b then m1 else m2).
Proof. now destruct b. Qed.

Create HintDb keeps discriminated.
#[local] Hint Resolve keeps_ret keeps_raise keeps_driver_query keeps_logger_warning
  : keeps.
#[local] Hint Extern 2 (keeps _ (bind _ _)) => apply keeps_bind; [|intros] : keeps.
#[local] Hint Extern 2 (keeps _ (try_except _ _)) =>
  apply keeps_try_except; [|intros] : keeps.
#[local] Hint Extern 2 (keeps _ (if _ then _ else _)) => apply keeps_if : keeps.

Lemma keeps_init (url database node_label : string) :
  keeps P (init url database node_label).
Proof.
  unfold init, create_id_index, index_exists, on_response_error.
  apply keeps_bind; [|auto with keeps].
  apply keeps_try_except.
  - apply keeps_bind.
    + apply keeps_bind; [auto with keeps|]. intros rs.
      destruct rs as [|[|c ?] ?]; auto with keeps.
      destruct c; auto with keeps.
    + intros b. destruct b; cbn; auto with keeps.
  - intros [msg|cls msg|msg]; auto with keeps.
Qed.

Lemma keeps_get (self : Driver) (subj : string) : keeps P (get self subj).
Proof. unfold get. auto with keeps. Qed.

Lemma keeps_get_rel_map (self : Driver) (subjs : option (list string))
  (depth limit : Z) :
  keeps P (get_rel_map self subjs depth limit).
Proof.
  unfold get_rel_map, query. destruct subjs as [[|s subjs]|]; auto with keeps.
  apply keeps_bind; [auto with keeps|]. intros [|row rows]; auto with keeps.
  destruct (add_records [] (row :: rows)); auto with keeps.
Qed.

Lemma keeps_upsert_triplet (self : Driver) (subj rel obj : string) :
  keeps P (upsert_triplet self subj rel obj).
Proof. unfold upsert_triplet. auto with keeps. Qed.

Lemma keeps_delete (self : Driver) (subj rel obj : string) :
  keeps P (delete self subj rel obj).
Proof.
  unfold delete, FalkorDBGraphStoreDriver.delete_rel, check_edges, delete_entity.
  repeat (apply keeps_bind; [auto with keeps|intros]).
  auto with keeps.
Qed.

Lemma keeps_upsert_node (self : Driver) (node_id : string) :
  keeps P (upsert_node self node_id).
Proof.
  unfold upsert_node. apply keeps_bind; [apply keeps_upsert_triplet|auto with keeps].
Qed.

Lemma keeps_perform (w : World Graph) (c : Driver * Call) :
  P (w_store w) -> P (w_store (perform w c)).
Proof.
  destruct c as [self []]; cbn.
  - apply keeps_init.
  - apply keeps_get.
  - apply keeps_get_rel_map.
  - apply keeps_upsert_triplet.
  - apply keeps_delete.
  - exact (keeps_delete self node_id EmptyString EmptyString w).
  - apply keeps_upsert_node.
Qed.

Lemma keeps_perform_all (calls : list (Driver * Call)) (w : World Graph) :
  P (w_store w) -> P (w_store (perform_all calls w)).
Proof.
  unfold perform_all. revert w.
  induction calls as [|c calls IH]; intros w Hw; cbn; [exact Hw|].
  apply IH. now apply keeps_perform.
Qed.

End Keeps.

(** ** Unique identifiers *)

Lemma merge_node_well_formed (l id : string) (g : Graph) :
  well_formed g -> well_formed (fst (merge_node l id g)).
Proof.
  intros [Hnd Hlt]. unfold merge_node.
  destruct (filter (node_matches l id) (g_nodes g)); [|now split].
  split; cbn.
  - rewrite map_app. cbn. apply NoDup_app.
    + exact Hnd.
    + constructor; [intros []|constructor].
    + intros u Hin [<-|[]]. apply in_map_iff in Hin.
      destruct Hin as (n & Hu & Hn). rewrite Forall_forall in Hlt.
      specialize (Hlt n Hn). lia.
  - apply Forall_app. split.
    + eapply Forall_impl; [|exact Hlt]. cbn. intros n Hn. lia.
    + constructor; [cbn; lia|constructor].
Qed.

Lemma merge_edges_next_node (rel : string) (ps : list (nat * nat)) (g : Graph) :
  g_next_node (fold_left (merge_edge rel) ps g) = g_next_node g.
Proof.
  revert g. induction ps as [|[s d] ps IH]; intros g; cbn [fold_left]; [reflexivity|].
  rewrite IH. unfold merge_edge.
  now destruct (existsb (edge_between s rel d) (g_edges g)).
Qed.

Lemma merge_triplet_well_formed (l1 l2 rel subj obj : string) (g : Graph) :
  well_formed g -> well_formed (merge_triplet l1 l2 rel subj obj g).
Proof.
  intros Hg. unfold merge_triplet.
  destruct (merge_node l1 subj g) as [g1 n1s] eqn:H1.
  destruct (merge_node l2 obj g1) as [g2 n2s] eqn:H2.
  assert (Hg2 : well_formed g2).
  { replace g2 with (fst (merge_node l2 obj g1)) by now rewrite H2.
    apply merge_node_well_formed.
    replace g1 with (fst (merge_node l1 subj g)) by now rewrite H1.
    now apply merge_node_well_formed. }
  destruct Hg2 as [Hnd Hlt].
  split; rewrite GraphStoreProofs.merge_edges_nodes; [exact Hnd|].
  now rewrite merge_edges_next_node.
Qed.

Lemma NoDup_map_filter {A C} (f : A -> C) (p : A -> bool) (xs : list A) :
  NoDup (map f xs) -> NoDup (map f (filter p xs)).
Proof.
  induction xs as [|x xs IH]; cbn; [constructor|].
  intros Hnd. inversion Hnd as [|? ? Hnotin Hnd']; subst.
  destruct (p x); cbn; [|now apply IH].
  constructor; [|now apply IH].
  intros Hin. apply Hnotin. apply in_map_iff in Hin.
  destruct Hin as (y & Hy & Hin). apply filter_In in Hin.
  apply in_map_iff. exists y. tauto.
Qed.

Lemma Forall_filter {A} (Q : A -> Prop) (p : A -> bool) (xs : list A) :
  Forall Q xs -> Forall Q (filter p xs).
Proof.
  rewrite !Forall_forall. intros HQ x Hin. apply filter_In in Hin. now apply HQ.
Qed.

Lemma well_formed_statements : statement_invariant well_formed.
Proof.
  intros q ps g Hg. pose proof Hg as [Hnd Hlt].
  destruct q; cbn.
  - unfold create_index. destruct (has_index label "id" g); exact Hg.
  - exact Hg.
  - destruct (str_param "subj" ps); exact Hg.
  - destruct (param "subjs" ps) as [[|]|]; exact Hg.
  - destruct (str_param "subj" ps), (str_param "obj" ps); cbn; try exact Hg.
    now apply merge_triplet_well_formed.
  - destruct (str_param "subj" ps), (str_param "obj" ps); cbn; exact Hg.
  - destruct (str_param "entity" ps); cbn; try exact Hg.
    split; cbn; [now apply NoDup_map_filter|now apply Forall_filter].
  - destruct (str_param "entity" ps); exact Hg.
Qed.

Lemma no_duplicates_statements : statement_invariant no_duplicates.
Proof. intros q ps g. apply GraphStoreProofs.run_no_duplicates. Qed.

Lemma all_have_id_statements : statement_invariant all_have_id.
Proof.
  unfold all_have_id. intros q ps g Hg.
  destruct q; cbn.
  - unfold create_index. destruct (has_index label "id" g); exact Hg.
  - exact Hg.
  - destruct (str_param "subj" ps); exact Hg.
  - destruct (param "subjs" ps) as [[|]|]; exact Hg.
  - destruct (str_param "subj" ps) as [subj|], (str_param "obj" ps) as [obj|];
      cbn; try exact Hg.
    unfold merge_triplet.
    destruct (merge_node label1 subj g) as [g1 n1s] eqn:H1.
    destruct (merge_node label2 obj g1) as [g2 n2s] eqn:H2.
    rewrite GraphStoreProofs.merge_edges_nodes.
    assert (Hstep : forall l id g0,
               Forall (fun n => lookup "id" (properties n) <> None) (g_nodes g0) ->
               Forall (fun n => lookup "id" (properties n) <> None)
                 (g_nodes (fst (merge_node l id g0)))).
    { intros l id g0 H0. unfold merge_node.
      destruct (filter (node_matches l id) (g_nodes g0)); [|exact H0].
      cbn. apply Forall_app. split; [exact H0|].
      constructor; [discriminate|constructor]. }
    replace g2 with (fst (merge_node label2 obj g1)) by now rewrite H2.
    apply Hstep. replace g1 with (fst (merge_node label1 subj g)) by now rewrite H1.
    now apply Hstep.
  - destruct (str_param "subj" ps), (str_param "obj" ps); cbn; exact Hg.
  - destruct (str_param "entity" ps); cbn; try exact Hg. now apply Forall_filter.
  - destruct (str_param "entity" ps); exact Hg.
Qed.

Lemma empty_well_formed : well_formed empty.
Proof. split; constructor. Qed.

(** X6. Whatever methods are called on whatever drivers, in whatever
    order and with whatever arguments, a store that was free of
    duplicate nodes and edges stays free of them, internal node
    identifiers stay unique, and nodes that all had an [id] all have
    one; so it is for every store that started empty. *)
Theorem calls_keep_graph_without_duplicates
  (calls : list (Driver * Call)) (w : World Graph) :
  (no_duplicates (w_store w) -> no_duplicates (w_store (perform_all calls w)))
  /\ (well_formed (w_store w) -> well_formed (w_store (perform_all calls w)))
  /\ (all_have_id (w_store w) -> all_have_id (w_store (perform_all calls w)))
  /\ no_duplicates (w_store (perform_all calls (world empty)))
  /\ well_formed (w_store (perform_all calls (world empty)))
  /\ all_have_id (w_store (perform_all calls (world empty))).
Proof.
  split; [|split; [|split; [|split; [|split]]]].
  - intros Hw. apply keeps_perform_all; [apply no_duplicates_statements|exact Hw].
  - intros Hw. apply keeps_perform_all; [apply well_formed_statements|exact Hw].
  - intros Hw. apply keeps_perform_all; [apply all_have_id_statements|exact Hw].
  - apply keeps_perform_all;
      [apply no_duplicates_statements|apply GraphStoreProofs.empty_no_duplicates].
  - apply keeps_perform_all; [apply well_formed_statements|apply empty_well_formed].
  - apply keeps_perform_all; [apply all_have_id_statements|constructor].
Qed.

Lemma calls_keep_graph_without_duplicates_witness :
  no_duplicates
    (w_store (perform_all
                [(entity_driver, CallInit "redis://localhost" "falkor" "Entity");
                 (entity_driver, CallUpsertTriplet "a" "r" "b");
                 (entity_driver, CallUpsertTriplet "a" "R" "b");
                 (entity_driver, CallDelete "a" "r" "b")]
                (world empty))).
Proof.
  destruct (calls_keep_graph_without_duplicates
              [(entity_driver, CallInit "redis://localhost" "falkor" "Entity");
               (entity_driver, CallUpsertTriplet "a" "r" "b");
               (entity_driver, CallUpsertTriplet "a" "R" "b");
               (entity_driver, CallDelete "a" "r" "b")]
              (world empty)) as (Hkeep & _).
  exact (Hkeep GraphStoreProofs.empty_no_duplicates).
Defined.

(** ** [get] *)

Lemma get_graph (self : Driver) (subj : string) (w : World Graph) :
  constructed self ->
  get self subj w
  = (inr (match_outgoing (_node_label self) subj (w_store w)),
     mkWorld (w_store w) (w_warnings w)
       (w_sent w ++ [(MatchOutgoing (_node_label self), [("subj", VStr subj)])])).
Proof. intros Hc. unfold get, driver_query. rewrite Hc. reflexivity. Qed.

Lemma find_node_unique (g : Graph) (n : Node) :
  NoDup (map n_uid (g_nodes g)) -> In n (g_nodes g) ->
  find_node g (n_uid n) = Some n.
Proof.
  unfold find_node. induction (g_nodes g) as [|m ns IH]; cbn; [intros _ []|].
  intros Hnd Hin. inversion Hnd as [|? ? Hnotin Hnd']; subst.
  destruct (n_uid m =? n_uid n) eqn:Heq.
  - destruct Hin as [->|Hin]; [reflexivity|].
    apply Nat.eqb_eq in Heq. exfalso. apply Hnotin. rewrite Heq. now apply in_map.
  - destruct Hin as [->|Hin]; [now rewrite Nat.eqb_refl in Heq|now apply IH].
Qed.

Lemma node_matches_inv (l id : string) (n : Node) :
  node_matches l id n = true ->
  n_label n = l /\ lookup "id" (properties n) = Some id.
Proof.
  unfold node_matches, opt_eqb. intros Hm. apply andb_prop in Hm.
  destruct Hm as [Hl Hi]. apply String.eqb_eq in Hl.
  destruct (lookup "id" (properties n)) as [v|]; [|discriminate].
  apply String.eqb_eq in Hi. now subst.
Qed.

(** What a row of [get] stands for. *)
Lemma match_outgoing_row (l subj : string) (g : Graph) (row : list Cell) :
  In row (match_outgoing l subj g) ->
  exists n1 e n2,
    In n1 (g_nodes g) /\ node_matches l subj n1 = true
    /\ In e (g_edges g) /\ e_src e = n_uid n1
    /\ In n2 (g_nodes g) /\ n_uid n2 = e_dst e /\ n_label n2 = l
    /\ row = [CStr (relation e); id_cell n2].
Proof.
  unfold match_outgoing, outgoing_rows. intros Hin.
  apply in_flat_map in Hin. destruct Hin as (n1 & Hn1 & Hin).
  apply filter_In in Hn1. destruct Hn1 as [Hn1 Hm1].
  apply in_flat_map in Hin. destruct Hin as (e & He & Hin).
  destruct (e_src e =? n_uid n1) eqn:Hs; [|destruct Hin].
  apply Nat.eqb_eq in Hs.
  destruct (find_node g (e_dst e)) as [n2|] eqn:Hf; [|destruct Hin].
  destruct (String.eqb (n_label n2) l) eqn:Hl; [|destruct Hin].
  destruct Hin as [<-|[]]. apply String.eqb_eq in Hl.
  apply find_some in Hf. destruct Hf as [Hn2 Hu]. apply Nat.eqb_eq in Hu.
  exists n1, e, n2. tauto.
Qed.



(** X8. What [upsert_triplet] wrote, [get] reads back: on a FalkorDB
    graph with unique node identifiers, after
    [upsert_triplet(a, r, b)] the rows of [get(a)] include the pair of
    the normalised relation label and [b]. *)
Theorem get_after_upsert_triplet (self : Driver) (a r b : string) (w : World Graph) :
  constructed self ->
  well_formed (w_store w) ->
  exists rows w',
    get self a (snd (upsert_triplet self a r b w)) = (inr rows, w')
    /\ In [CStr (normalized_label r); CStr b] rows.
Proof.
  intros Hc Hwf. rewrite (get_graph _ _ _ Hc).
  eexists. eexists. split; [reflexivity|].
  rewrite GraphStoreProofs.upsert_triplet_graph. cbn [snd w_store].
  rewrite GraphStoreProofs.replace_space_upper.
  set (l := _node_label self). set (rel := normalized_label r).
  pose proof (merge_triplet_well_formed l l rel a b _ Hwf) as [Hnd _].
  destruct (GraphStoreProofs.merge_triplet_edge l l rel a b (w_store w))
    as (e & n1 & n2 & He & H1 & H2 & Hs & Hd & M1 & M2 & Hr).
  set (g' := merge_triplet l l rel a b (w_store w)) in *.
  unfold match_outgoing. apply in_flat_map. exists n1. split.
  - apply filter_In. now split.
  - unfold outgoing_rows. apply in_flat_map. exists e. split; [exact He|].
    rewrite Hs, Nat.eqb_refl, Hd, (find_node_unique g' n2 Hnd H2).
    destruct (node_matches_inv _ _ _ M2) as [Hl Hi].
    rewrite Hl, String.eqb_refl. unfold id_cell. rewrite Hi, Hr. now left.
Qed.

Lemma get_after_upsert_triplet_witness :
  constructed entity_driver /\ well_formed empty
  /\ exists rows w',
      get entity_driver "x" (snd (upsert_triplet entity_driver "x" "has parent" "y"
                                    (world empty)))
      = (inr rows, w')
      /\ In [CStr (normalized_label "has parent"); CStr "y"] rows.
Proof.
  assert (Hc : constructed entity_driver) by reflexivity.
  split; [exact Hc|]. split; [exact empty_well_formed|].
  exact (get_after_upsert_triplet entity_driver "x" "has parent" "y" (world empty)
           Hc empty_well_formed).
Defined.

(** X9. What [delete] removed, [get] no longer reads: on a FalkorDB
    graph, after [delete(a, r, b)] no row of [get(a)] is the pair of
    the normalised relation label and [b]. *)
Theorem get_after_delete (self : Driver) (a r b : string) (w : World Graph) :
  constructed self ->
  exists rows w',
    get self a (snd (delete self a r b w)) = (inr rows, w')
    /\ ~ In [CStr (normalized_label r); CStr b] rows.
Proof.
  intros Hc. rewrite (get_graph _ _ _ Hc).
  eexists. eexists. split; [reflexivity|].
  rewrite GraphStoreProofs.delete_graph. cbn [snd w_store].
  rewrite GraphStoreProofs.replace_space_upper.
  set (l := _node_label self). set (rel := normalized_label r).
  intros Hin. apply match_outgoing_row in Hin.
  destruct Hin as (n1 & e & n2 & H1 & M1 & He & Hs & H2 & Hu & Hl & Hrow).
  cbn in H1, H2, He. apply filter_In in He. destruct He as [He Hkept].
  injection Hrow as Hr Hid.
  assert (M2 : node_matches l b n2 = true).
  { unfold node_matches, id_cell in *. rewrite Hl, String.eqb_refl.
    destruct (lookup "id" (properties n2)) as [v|]; [|discriminate].
    injection Hid as <-. cbn. now rewrite String.eqb_refl. }
  assert (Hhit : edge_matches (w_store w) l rel a b e = true).
  { unfold edge_matches. rewrite <- Hr, String.eqb_refl, Hs, <- Hu.
    now rewrite !GraphStoreProofs.uid_matches_node. }
  now rewrite Hhit in Hkept.
Qed.

Lemma get_after_delete_witness :
  constructed entity_driver
  /\ exists rows w',
      get entity_driver "a"
        (snd (delete entity_driver "a" "r" "b"
                (snd (upsert_triplet entity_driver "a" "r" "b" (world empty)))))
      = (inr rows, w')
      /\ ~ In [CStr (normalized_label "r"); CStr "b"] rows.
Proof.
  assert (Hc : constructed entity_driver) by reflexivity.
  split; [exact Hc|].
  exact (get_after_delete entity_driver "a" "r" "b"
           (snd (upsert_triplet entity_driver "a" "r" "b" (world empty))) Hc).
Defined.

(** ** [delete] and [delete_node] *)

Lemma filter_all {A} (p : A -> bool) (xs : list A) :
  (forall x, In x xs -> p x = true) -> filter p xs = xs.
Proof.
  induction xs as [|x xs IH]; cbn; intros Hall; [reflexivity|].
  rewrite (Hall x) by now left. f_equal. apply IH. intros y Hy. apply Hall. now right.
Qed.

Lemma filter_twice {A} (p : A -> bool) (xs : list A) :
  filter p (filter p xs) = filter p xs.
Proof.
  apply filter_all. intros x Hin. apply filter_In in Hin. tauto.
Qed.

Lemma delete_rel_twice (l rel subj obj : string) (g : Graph) :
  FalkorDB.delete_rel l rel subj obj (FalkorDB.delete_rel l rel subj obj g)
  = FalkorDB.delete_rel l rel subj obj g.
Proof.
  unfold FalkorDB.delete_rel. cbn. f_equal.
  change (fun e => negb (edge_matches
                           (mkGraph (g_nodes g)
                              (filter (fun e0 => negb (edge_matches g l rel subj obj e0))
                                 (g_edges g))
                              (g_next_node g) (g_next_edge g) (g_indexes g))
                           l rel subj obj e))
    with (fun e => negb (edge_matches g l rel subj obj e)).
  apply filter_twice.
Qed.

(** X10. On a FalkorDB graph [delete] returns without raising and
    only ever removes edges: the nodes and the indexes are the ones
    that were there, no edge is added, a triplet that is not in the
    store leaves the store as it is, and a second [delete] of the
    same triplet changes nothing more. *)
Theorem delete_only_removes_edges (self : Driver) (a r b : string) (w : World Graph) :
  let g := w_store w in
  let g' := w_store (snd (delete self a r b w)) in
  fst (delete self a r b w) = inr tt
  /\ g_nodes g' = g_nodes g
  /\ g_indexes g' = g_indexes g
  /\ (forall e, In e (g_edges g') -> In e (g_edges g))
  /\ ((forall e, In e (g_edges g) ->
                 edge_matches g (_node_label self) (normalized_label r) a b e = false) ->
      g' = g)
  /\ w_store (snd (delete self a r b (snd (delete self a r b w)))) = g'.
Proof.
  cbv zeta. rewrite !GraphStoreProofs.delete_graph. cbn [fst snd w_store].
  rewrite GraphStoreProofs.replace_space_upper.
  split; [reflexivity|]. split; [reflexivity|]. split; [reflexivity|].
  split; [|split].
  - intros e Hin. cbn in Hin. apply filter_In in Hin. tauto.
  - intros Hnone. unfold FalkorDB.delete_rel. rewrite filter_all.
    + now destruct (w_store w).
    + intros e Hin. now rewrite Hnone.
  - apply delete_rel_twice.
Qed.

Lemma delete_only_removes_edges_witness :
  w_store (snd (delete entity_driver "a" "likes" "b"
                  (snd (upsert_triplet entity_driver "a" "r" "b" (world empty)))))
  = w_store (snd (upsert_triplet entity_driver "a" "r" "b" (world empty))).
Proof.
  destruct (delete_only_removes_edges entity_driver "a" "likes" "b"
              (snd (upsert_triplet entity_driver "a" "r" "b" (world empty))))
    as (_ & _ & _ & _ & Hnone & _).
  apply Hnone. intros e [<-|[]]. reflexivity.
Defined.

(** X11. [delete_node(node_id)] is [delete] of the triplet with the
    empty relation and the empty object: on a FalkorDB graph it
    leaves every node in place, the node [node_id] among them, and
    removes exactly the edges of the empty type from [node_id] to the
    node with the empty id. *)
Theorem delete_node_removes_no_node (self : Driver) (node_id : string) (w : World Graph) :
  let g := w_store w in
  let g' := w_store (snd (FalkorDBGraphStoreDriver.delete_node self node_id w)) in
  fst (FalkorDBGraphStoreDriver.delete_node self node_id w) = inr tt
  /\ g_nodes g' = g_nodes g
  /\ g_edges g'
     = filter (fun e => negb (edge_matches g (_node_label self) EmptyString
                                node_id EmptyString e))
         (g_edges g).
Proof.
  cbv zeta. unfold FalkorDBGraphStoreDriver.delete_node.
  rewrite GraphStoreProofs.delete_graph. cbn [fst snd w_store].
  repeat split; reflexivity.
Qed.

(** ** [upsert_triplet] *)

Lemma merge_node_adds (l id : string) (g : Graph) :
  exists extra,
    g_nodes (fst (merge_node l id g)) = g_nodes g ++ extra
    /\ (extra = [] \/ extra = [mkNode (g_next_node g) l [("id", id)]])
    /\ g_indexes (fst (merge_node l id g)) = g_indexes g.
Proof.
  unfold merge_node. destruct (filter (node_matches l id) (g_nodes g)).
  - eexists. cbn. split; [reflexivity|]. split; [now right|reflexivity].
  - exists []. cbn. rewrite app_nil_r. split; [reflexivity|]. split; [now left|reflexivity].
Qed.

Lemma merge_edges_indexes (rel : string) (ps : list (nat * nat)) (g : Graph) :
  g_indexes (fold_left (merge_edge rel) ps g) = g_indexes g.
Proof.
  revert g. induction ps as [|[s d] ps IH]; intros g; cbn [fold_left]; [reflexivity|].
  rewrite IH. unfold merge_edge.
  now destruct (existsb (edge_between s rel d) (g_edges g)).
Qed.

Lemma merge_edges_incl (rel : string) (ps : list (nat * nat)) (g : Graph) (e : Edge) :
  In e (g_edges g) -> In e (g_edges (fold_left (merge_edge rel) ps g)).
Proof.
  revert g. induction ps as [|[s d] ps IH]; intros g Hin; cbn [fold_left]; [exact Hin|].
  apply IH. unfold merge_edge.
  destruct (existsb (edge_between s rel d) (g_edges g)); [exact Hin|].
  cbn. apply in_or_app. now left.
Qed.

(** X12. On a FalkorDB graph [upsert_triplet] returns without raising
    and only ever adds: every node and every edge that was in the
    store is still there and the indexes are untouched; at most two
    nodes are new, each with the driver's label and with [id] as its
    only property, set to the subject or to the object. *)
Theorem upsert_triplet_only_adds (self : Driver) (a r b : string) (w : World Graph) :
  let g := w_store w in
  let g' := w_store (snd (upsert_triplet self a r b w)) in
  fst (upsert_triplet self a r b w) = inr tt
  /\ (forall n, In n (g_nodes g) -> In n (g_nodes g'))
  /\ (forall e, In e (g_edges g) -> In e (g_edges g'))
  /\ g_indexes g' = g_indexes g
  /\ List.length (g_nodes g') <= List.length (g_nodes g) + 2
  /\ (forall n, In n (g_nodes g') ->
                In n (g_nodes g)
                \/ (n_label n = _node_label self
                    /\ (properties n = [("id", a)] \/ properties n = [("id", b)]))).
Proof.
  cbv zeta. rewrite GraphStoreProofs.upsert_triplet_graph. cbn [fst snd w_store].
  set (l := _node_label self). set (rel := PyStr.upper (PyStr.replace " " "_" r)).
  set (g := w_store w). unfold merge_triplet.
  destruct (merge_node_adds l a g) as (x1 & Hn1 & Hx1 & Hi1).
  destruct (merge_node l a g) as [g1 n1s] eqn:H1. cbn [fst] in Hn1, Hi1.
  destruct (merge_node_adds l b g1) as (x2 & Hn2 & Hx2 & Hi2).
  pose proof (GraphStoreProofs.merge_node_edges l a g) as He1.
  pose proof (GraphStoreProofs.merge_node_edges l b g1) as He2.
  rewrite H1 in He1. cbn [fst] in He1.
  destruct (merge_node l b g1) as [g2 n2s] eqn:H2. cbn [fst] in Hn2, Hi2, He2.
  rewrite GraphStoreProofs.merge_edges_nodes, merge_edges_indexes, Hn2, Hn1, Hi2, Hi1.
  split; [reflexivity|]. split; [|split; [|split; [|split]]].
  - intros n Hin. apply in_or_app. left. apply in_or_app. now left.
  - intros e Hin. apply merge_edges_incl. now rewrite He2, He1.
  - reflexivity.
  - rewrite !length_app. destruct Hx1 as [->| ->], Hx2 as [->| ->]; cbn; lia.
  - intros n Hin. apply in_app_or in Hin. destruct Hin as [Hin|Hin].
    + apply in_app_or in Hin. destruct Hin as [Hin|Hin]; [now left|].
      destruct Hx1 as [->| ->]; [destruct Hin|].
      destruct Hin as [<-|[]]. right. split; [reflexivity|now left].
    + destruct Hx2 as [->| ->]; [destruct Hin|].
      destruct Hin as [<-|[]]. right. split; [reflexivity|now right].
Qed.

Lemma upsert_triplet_only_adds_witness :
  In (mkNode 0 "Entity" [("id", "a")])
    (g_nodes (w_store (snd (upsert_triplet entity_driver "b" "likes it" "c"
                              (snd (upsert_triplet entity_driver "a" "r" "b"
                                      (world empty))))))).
Proof.
  destruct (upsert_triplet_only_adds entity_driver "b" "likes it" "c"
              (snd (upsert_triplet entity_driver "a" "r" "b" (world empty))))
    as (_ & Hnodes & _).
  apply Hnodes. left. reflexivity.
Defined.

(** ** Relation labels with one normal form *)

Lemma normalized_char_idempotent (c : ascii) :
  normalized_char (normalized_char c) = normalized_char c.
Proof. destruct c as [[] [] [] [] [] [] [] []]; reflexivity. Qed.

Lemma normalized_label_idempotent (rel : string) :
  normalized_label (normalized_label rel) = normalized_label rel.
Proof.
  induction rel as [|c rel IH]; [reflexivity|].
  cbn. now rewrite normalized_char_idempotent, IH.
Qed.

(** X13. Two relation labels with the same normal form, such as
    [has parent] and [HAS_PARENT], name the same edge type: on a
    FalkorDB graph [upsert_triplet] with the second after the first
    changes nothing, and [delete] with either leaves the same store.
    The stored type is its own normal form, so the type that [get]
    returns can be handed back to [upsert_triplet] and [delete]. *)
Theorem same_normal_form_same_edge (self : Driver) (a r1 r2 b : string)
  (w : World Graph) :
  normalized_label r1 = normalized_label r2 ->
  w_store (snd (upsert_triplet self a r2 b (snd (upsert_triplet self a r1 b w))))
  = w_store (snd (upsert_triplet self a r1 b w))
  /\ w_store (snd (delete self a r2 b w)) = w_store (snd (delete self a r1 b w))
  /\ normalized_label (normalized_label r1) = normalized_label r2.
Proof.
  intros Heq.
  rewrite !GraphStoreProofs.upsert_triplet_graph, !GraphStoreProofs.delete_graph.
  cbn [snd w_store]. rewrite !GraphStoreProofs.replace_space_upper, <- Heq.
  split; [apply GraphStoreProofs.merge_triplet_idempotent|].
  split; [reflexivity|apply normalized_label_idempotent].
Qed.

Lemma same_normal_form_same_edge_witness :
  normalized_label "has parent" = normalized_label "HAS_PARENT"
  /\ w_store (snd (upsert_triplet entity_driver "x" "HAS_PARENT" "y"
                     (snd (upsert_triplet entity_driver "x" "has parent" "y"
                             (world empty)))))
     = w_store (snd (upsert_triplet entity_driver "x" "has parent" "y" (world empty))).
Proof.
  assert (Heq : normalized_label "has parent" = normalized_label "HAS_PARENT")
    by reflexivity.
  split; [exact Heq|].
  exact (proj1 (same_normal_form_same_edge entity_driver "x" "has parent" "HAS_PARENT"
                  "y" (world empty) Heq)).
Defined.

(** ** [index_exists] and [__init__] *)

Lemma has_index_add_index_kept (l a l' a' : string) (ix : list (string * list string)) :
  existsb (fun row => String.eqb (fst row) l' && existsb (String.eqb a') (snd row)) ix
  = true ->
  existsb (fun row => String.eqb (fst row) l' && existsb (String.eqb a') (snd row))
    (add_index l a ix) = true.
Proof.
  induction ix as [|[l0 attrs] ix IH]; cbn; [discriminate|].
  intros Hex. apply orb_prop in Hex.
  destruct (String.eqb l0 l); cbn.
  - destruct Hex as [Hrow| ->]; [|apply orb_true_r].
    apply andb_prop in Hrow. destruct Hrow as [-> Hattr]. cbn.
    now rewrite existsb_app, Hattr.
  - destruct Hex as [->|Hrest]; [reflexivity|]. rewrite (IH Hrest). apply orb_true_r.
Qed.

Lemma index_exists_graph (l attribute : string) (w : World Graph) :
  index_exists l attribute w
  = (inr (has_index l attribute (w_store w)),
     mkWorld (w_store w) (w_warnings w)
       (w_sent w ++ [(CountIndexes l attribute, [])])).
Proof.
  unfold index_exists, bind, driver_query. cbn.
  now rewrite GraphStoreProofs.count_indexes_positive.
Qed.

(** X14. On a FalkorDB graph [index_exists] returns without raising,
    leaves the store as it is, and answers true exactly when some
    index of the label covers the attribute; after [__init__] for a
    label it answers true for that label and [id]. *)
Theorem index_exists_tells_has_index (l attribute : string) (w : World Graph) :
  (exists w',
      index_exists l attribute w
      = (inr (existsb (fun row => String.eqb (fst row) l
                                  && existsb (String.eqb attribute) (snd row))
                (g_indexes (w_store w))), w')
      /\ w_store w' = w_store w)
  /\ forall url database,
      fst (index_exists l "id" (snd (init url database l w))) = inr true.
Proof.
  split.
  - rewrite index_exists_graph. eexists. split; reflexivity.
  - intros url database. rewrite index_exists_graph. cbn [fst]. f_equal.
    destruct (GraphStoreProofs.init_on_graph url database l w) as (w1 & Hinit & Hix & _).
    now rewrite Hinit.
Qed.

(** X15. On a FalkorDB graph [__init__] returns the driver with the
    label and the database it was given, an empty schema cache and
    the query of [get] for that label.  It touches nothing but the
    indexes: nodes, edges and counters are the ones that were there,
    every index that existed still exists, the index on [id] for the
    label exists afterwards, and nothing is logged. *)
Theorem init_only_adds_the_index (url database l : string) (w : World Graph) :
  let g := w_store w in
  let g' := w_store (snd (init url database l w)) in
  fst (init url database l w)
  = inr (mkDriver l database EmptyString (MatchOutgoing l))
  /\ g_nodes g' = g_nodes g /\ g_edges g' = g_edges g
  /\ g_next_node g' = g_next_node g /\ g_next_edge g' = g_next_edge g
  /\ has_index l "id" g' = true
  /\ (forall l' a', has_index l' a' g = true -> has_index l' a' g' = true)
  /\ w_warnings (snd (init url database l w)) = w_warnings w.
Proof.
  cbv zeta. destruct (has_index l "id" (w_store w)) eqn:Hix.
  - rewrite (GraphStoreProofs.init_on_indexed_graph _ _ _ _ Hix). cbn.
    repeat split; try reflexivity; [exact Hix|tauto].
  - unfold init, try_except, create_id_index, bind.
    rewrite index_exists_graph, Hix. cbn -[create_index].
    unfold driver_query. cbn -[create_index has_index].
    unfold create_index. rewrite Hix. cbn -[has_index].
    repeat split; try reflexivity.
    + apply GraphStoreProofs.has_index_add_index.
    + intros l' a'. apply has_index_add_index_kept.
Qed.

Lemma init_only_adds_the_index_witness :
  has_index "Entity" "id"
    (w_store (snd (init "redis://localhost" "other" "Person"
                     (snd (init "redis://localhost" "falkor" "Entity" (world empty))))))
  = true.
Proof.
  destruct (init_only_adds_the_index "redis://localhost" "other" "Person"
              (snd (init "redis://localhost" "falkor" "Entity" (world empty))))
    as (_ & _ & _ & _ & _ & _ & Hkept & _).
  apply Hkept. reflexivity.
Defined.

(** ** [get_rel_map] *)

Lemma skipn_cons_nth {A} (k : nat) (xs : list A) (x : A) (rest : list A) :
  skipn k xs = x :: rest -> nth_error xs k = Some x /\ skipn (S k) xs = rest.
Proof.
  revert xs. induction k as [|k IH]; intros xs Hs.
  - cbn in Hs. subst. now split.
  - destruct xs as [|y ys]; [discriminate|]. cbn in Hs. now apply IH.
Qed.

(** The inner loop on a path whose nodes after the [i]-th all have an
    id, at least as many as there are edges to walk. *)
Lemma walk_alternate (es : list Edge) (i : nat) (ns : list Node) (ids path : list string) :
  has_ids (skipn (S i) ns) ids ->
  List.length es <= List.length ids ->
  walk i ns es path = inr (path ++ alternate es ids).
Proof.
  revert i ids path. induction es as [|e es IH]; intros i ids path Hids Hlen.
  - cbn. now rewrite app_nil_r.
  - destruct ids as [|d ids]; [cbn in Hlen; lia|].
    unfold has_ids in Hids. cbn [map] in Hids.
    destruct (skipn (S i) ns) as [|n rest] eqn:Hskip; [discriminate|].
    cbn [map] in Hids. injection Hids as Hd Hrest.
    apply skipn_cons_nth in Hskip. destruct Hskip as [Hnth Hskip].
    cbn [walk]. rewrite Nat.add_1_r, Hnth. unfold prop_id. rewrite Hd.
    rewrite (IH (S i) ids); [|now rewrite Hskip|cbn in Hlen; lia].
    cbn [alternate]. now rewrite <- app_assoc.
Qed.

Lemma add_record_decodes (m : RelMap) (row : list Cell) (kp : string * list string) :
  decodes row kp ->
  add_record m row
  = inr (dict_set (fst kp) (dict_get (fst kp) m ++ [snd kp]) m).
Proof.
  intros (p & rest & ids & -> & Hids & Hlen & ->).
  unfold add_record. cbn [record_path].
  unfold has_ids in Hids. destruct (nodes p) as [|n0 ns] eqn:Hn; [discriminate|].
  cbn [map] in Hids. injection Hids as H0 Hrest.
  cbn [nth_error]. unfold prop_id at 1. rewrite H0.
  rewrite (walk_alternate (edges p) 0 (n0 :: ns) ids []); [reflexivity|exact Hrest|lia].
Qed.

Lemma alternate_length (es : list Edge) (ids : list string) :
  List.length ids = List.length es ->
  List.length (alternate es ids) = 2 * List.length es.
Proof.
  revert ids. induction es as [|e es IH]; intros ids Hlen.
  - now destruct ids.
  - destruct ids as [|d ids]; [discriminate|]. cbn. rewrite IH; [lia|].
    now injection Hlen.
Qed.

(** X16. [get_rel_map] turns a path with nodes [n0 .. nk] and edges
    [e1 .. ek] into the alternating list of the relation of each edge
    and the id of the node it leads to, and files it under the id of
    [n0], after the paths already there. *)
Theorem add_record_files_alternating_path
  (m : RelMap) (p : Path) (rest : list Cell) (subj : string) (ids : list string) :
  has_ids (nodes p) (subj :: ids) ->
  List.length ids = List.length (edges p) ->
  add_record m (CPath p :: rest)
  = inr (dict_set subj (dict_get subj m ++ [alternate (edges p) ids]) m)
  /\ List.length (alternate (edges p) ids) = 2 * List.length (edges p).
Proof.
  intros Hids Hlen. split.
  - apply (add_record_decodes m _ (subj, alternate (edges p) ids)).
    now exists p, rest, ids.
  - now apply alternate_length.
Qed.

Lemma add_record_files_alternating_path_witness :
  add_record [("a", [["R"; "b"]])]
    [CPath (mkPath [mkNode 0 "Entity" [("id", "a")];
                    mkNode 1 "Entity" [("id", "b")];
                    mkNode 2 "Entity" [("id", "c")]]
              [mkEdge 0 0 "R" 1; mkEdge 1 1 "LIKES_IT" 2])]
  = inr [("a", [["R"; "b"]; ["R"; "b"; "LIKES_IT"; "c"]])].
Proof.
  destruct (add_record_files_alternating_path [("a", [["R"; "b"]])]
              (mkPath [mkNode 0 "Entity" [("id", "a")];
                       mkNode 1 "Entity" [("id", "b")];
                       mkNode 2 "Entity" [("id", "c")]]
                 [mkEdge 0 0 "R" 1; mkEdge 1 1 "LIKES_IT" 2])
              [] "a" ["b"; "c"] eq_refl eq_refl) as [Hfile _].
  exact Hfile.
Defined.

(** X17. [get_rel_map] does not check what it indexes: a row that is
    empty or led by something else than a path, a path without nodes,
    a path with no more nodes than edges, and a node without an [id]
    property each make it raise ([IndexError], [AttributeError],
    [KeyError]) instead of returning. *)
Theorem add_record_raises_on_malformed_rows (m : RelMap) :
  add_record m [] = inl (OtherError "IndexError" "list index out of range")
  /\ (forall n rest,
        add_record m (CNode n :: rest) = inl (OtherError "AttributeError" "nodes"))
  /\ (forall es rest,
        add_record m (CPath (mkPath [] es) :: rest)
        = inl (OtherError "IndexError" "list index out of range"))
  /\ (forall n0 ns es rest,
        lookup "id" (properties n0) = None ->
        add_record m (CPath (mkPath (n0 :: ns) es) :: rest)
        = inl (OtherError "KeyError" "id"))
  /\ (forall p rest subj ids,
        has_ids (nodes p) (subj :: ids) ->
        List.length ids < List.length (edges p) ->
        add_record m (CPath p :: rest)
        = inl (OtherError "IndexError" "list index out of range")).
Proof.
  split; [reflexivity|]. split; [reflexivity|]. split; [reflexivity|]. split.
  - intros n0 ns es rest Hnone. unfold add_record. cbn. unfold prop_id.
    now rewrite Hnone.
  - intros p rest subj ids Hids Hlen. unfold add_record. cbn [record_path].
    unfold has_ids in Hids. destruct (nodes p) as [|n0 ns]; [discriminate|].
    cbn [map] in Hids. injection Hids as H0 Hrest.
    cbn [nth_error]. unfold prop_id at 1. rewrite H0.
    assert (Hwalk : forall es i (ns' : list Node) ids' path,
               has_ids (skipn (S i) ns') ids' ->
               List.length ids' < List.length es ->
               walk i ns' es path
               = inl (OtherError "IndexError" "list index out of range")).
    { clear. induction es as [|e es IH]; intros i ns' ids' path Hids Hlen;
        [cbn in Hlen; lia|].
      unfold has_ids in Hids. cbn [walk]. rewrite Nat.add_1_r.
      destruct (skipn (S i) ns') as [|n rest] eqn:Hskip.
      - assert (Hnth : nth_error ns' (S i) = None).
        { apply nth_error_None. rewrite <- (firstn_skipn (S i) ns'), Hskip, app_nil_r.
          apply firstn_le_length. }
        now rewrite Hnth.
      - destruct ids' as [|d ids']; [discriminate|]. cbn [map] in Hids.
        injection Hids as Hd Hrest. apply skipn_cons_nth in Hskip.
        destruct Hskip as [Hnth Hskip]. rewrite Hnth. unfold prop_id. rewrite Hd.
        apply (IH (S i) ns' ids'); [now rewrite Hskip|cbn in Hlen; lia]. }
    now rewrite (Hwalk (edges p) 0 (n0 :: ns) ids []).
Qed.

Lemma add_record_raises_on_malformed_rows_witness :
  add_record []
    [CPath (mkPath [mkNode 0 "Entity" [("id", "a")]] [mkEdge 0 0 "R" 1])]
  = inl (OtherError "IndexError" "list index out of range")
  /\ add_record [] [CPath (mkPath [mkNode 0 "Entity" []] [])]
     = inl (OtherError "KeyError" "id").
Proof.
  destruct (add_record_raises_on_malformed_rows []) as (_ & _ & _ & Hkey & Hshort).
  split.
  - apply (Hshort (mkPath [mkNode 0 "Entity" [("id", "a")]] [mkEdge 0 0 "R" 1])
             [] "a" []); [reflexivity|cbn; lia].
  - apply Hkey. reflexivity.
Defined.

(** ** The relationship map *)

Lemma dict_get_set_same (k : string) (v : list (list string)) (m : RelMap) :
  dict_get k (dict_set k v m) = v.
Proof.
  induction m as [|[k' v'] m IH]; cbn.
  - now rewrite String.eqb_refl.
  - destruct (String.eqb k k') eqn:Hk; cbn; rewrite ?String.eqb_refl, ?Hk; auto.
Qed.

Lemma dict_get_set_other (k k' : string) (v : list (list string)) (m : RelMap) :
  String.eqb k k' = false -> dict_get k (dict_set k' v m) = dict_get k m.
Proof.
  intros Hne. induction m as [|[k0 v0] m IH]; cbn.
  - now rewrite Hne.
  - destruct (String.eqb k' k0) eqn:Hk; cbn.
    + apply String.eqb_eq in Hk. subst k0. now rewrite Hne.
    + destruct (String.eqb k k0); auto.
Qed.

Lemma dict_set_keys (k k' : string) (v : list (list string)) (m : RelMap) :
  In k' (map fst (dict_set k v m)) <-> k' = k \/ In k' (map fst m).
Proof.
  induction m as [|[k0 v0] m IH]; cbn.
  - intuition.
  - destruct (String.eqb k k0) eqn:Hk; cbn.
    + apply String.eqb_eq in Hk. subst k0. intuition.
    + rewrite IH. intuition.
Qed.

Lemma dict_set_NoDup (k : string) (v : list (list string)) (m : RelMap) :
  NoDup (map fst m) -> NoDup (map fst (dict_set k v m)).
Proof.
  induction m as [|[k0 v0] m IH]; cbn; intros Hnd.
  - constructor; [intros []|constructor].
  - inversion Hnd as [|? ? Hnotin Hnd']; subst.
    destruct (String.eqb k k0) eqn:Hk; cbn.
    + apply String.eqb_eq in Hk. subst k0. now constructor.
    + constructor; [|now apply IH].
      rewrite dict_set_keys. intros [->|Hin]; [|contradiction].
      now rewrite String.eqb_refl in Hk.
Qed.

Lemma dict_set_total (k : string) (path : list string) (m : RelMap) :
  total_paths (dict_set k (dict_get k m ++ [path]) m) = S (total_paths m).
Proof.
  unfold total_paths. induction m as [|[k0 v0] m IH]; [reflexivity|].
  cbn [dict_get dict_set]. destruct (String.eqb k k0).
  - cbn [map list_sum fold_right snd]. rewrite length_app. cbn [List.length]. lia.
  - cbn [map snd]. change (list_sum (?x :: ?l)) with (x + list_sum l).
    rewrite IH. cbn [map list_sum fold_right snd]. lia.
Qed.

Lemma dict_get_in (k : string) (v : list (list string)) (m : RelMap) :
  NoDup (map fst m) -> In (k, v) m -> dict_get k m = v.
Proof.
  induction m as [|[k0 v0] m IH]; cbn; intros Hnd Hin; [destruct Hin|].
  inversion Hnd as [|? ? Hnotin Hnd']; subst.
  destruct Hin as [[= -> ->]|Hin]; [now rewrite String.eqb_refl|].
  destruct (String.eqb k k0) eqn:Hk; [|now apply IH].
  apply String.eqb_eq in Hk. subst k0. exfalso. apply Hnotin.
  change k with (fst (k, v)). now apply in_map.
Qed.

Lemma dict_get_nonempty_key (k : string) (m : RelMap) :
  dict_get k m <> [] -> In k (map fst m).
Proof.
  induction m as [|[k0 v0] m IH]; cbn; [congruence|].
  destruct (String.eqb k k0) eqn:Hk; [|auto].
  apply String.eqb_eq in Hk. auto.
Qed.

(** The outer loop on rows that all decode: it returns, every subject
    gets its paths appended in the order of the rows, and one path is
    added for each row. *)
Lemma add_records_grouped (data : ResultSet) (kps : list (string * list string))
  (m : RelMap) :
  Forall2 decodes data kps ->
  exists m',
    add_records m data = inr m'
    /\ (forall k, dict_get k m' = dict_get k m ++ paths_of k kps)
    /\ total_paths m' = total_paths m + List.length data
    /\ (NoDup (map fst m) -> NoDup (map fst m'))
    /\ (forall k, In k (map fst m') -> In k (map fst m) \/ In k (map fst kps)).
Proof.
  intros Hall. revert m. induction Hall as [|row kp data kps Hrow Hall IH]; intros m.
  - exists m. cbn. split; [reflexivity|]. split; [intros k; now rewrite app_nil_r|].
    split; [lia|]. split; [auto|]. intros k Hin. now left.
  - cbn [add_records]. rewrite (add_record_decodes m row kp Hrow).
    destruct (IH (dict_set (fst kp) (dict_get (fst kp) m ++ [snd kp]) m))
      as (m' & Hrun & Hget & Htotal & Hnd & Hkeys).
    exists m'. split; [exact Hrun|]. split; [|split; [|split]].
    + intros k. rewrite Hget. unfold paths_of. cbn [filter].
      destruct (String.eqb k (fst kp)) eqn:Hk.
      * apply String.eqb_eq in Hk. subst k.
        rewrite dict_get_set_same. cbn [map]. now rewrite <- app_assoc.
      * now rewrite dict_get_set_other.
    + rewrite Htotal, dict_set_total. cbn. lia.
    + intros Hm. apply Hnd. now apply dict_set_NoDup.
    + intros k Hin. apply Hkeys in Hin. destruct Hin as [Hin|Hin].
      * apply dict_set_keys in Hin. destruct Hin as [->|Hin]; [|now left].
        right. now left.
      * right. now right.
Qed.

Lemma paths_of_key (k : string) (kps : list (string * list string)) :
  In k (map fst kps) -> paths_of k kps <> [].
Proof.
  unfold paths_of. induction kps as [|[k0 path0] kps IH]; cbn; [intros []|].
  intros [->|Hin].
  - now rewrite String.eqb_refl.
  - destruct (String.eqb k k0); [discriminate|now apply IH].
Qed.

(** X18. When the store answers the path query with rows that all
    decode, [get_rel_map] returns a mapping with one key for each
    subject that leads a row and no other key, no key twice; under a
    subject it lists the paths of the rows that subject leads, in the
    order of the rows, so that the mapping holds as many paths as
    there are rows. *)
Theorem get_rel_map_groups_paths_by_subject
  (B : Type) (HB : Backend B) (self : Driver) (s : string) (subjs : list string)
  (depth limit : Z) (w : World B) (data : ResultSet) (b' : B)
  (kps : list (string * list string)) :
  exec (MatchPaths (_node_label self) depth limit) [("subjs", VList (s :: subjs))]
    (w_store w) = (inr data, b') ->
  Forall2 decodes data kps ->
  exists m,
    get_rel_map self (Some (s :: subjs)) depth limit w
    = (inr m,
       mkWorld b' (w_warnings w)
         (w_sent w ++ [(MatchPaths (_node_label self) depth limit,
                        [("subjs", VList (s :: subjs))])]))
    /\ (forall k, dict_get k m = paths_of k kps)
    /\ (forall k, In k (map fst m) <-> In k (map fst kps))
    /\ NoDup (map fst m)
    /\ total_paths m = List.length data.
Proof.
  intros Hexec Hall.
  destruct (add_records_grouped data kps [] Hall)
    as (m & Hrun & Hget & Htotal & Hnd & Hkeys).
  exists m. split; [|split; [|split; [|split]]].
  - unfold get_rel_map, query, bind, driver_query. rewrite Hexec.
    destruct data as [|row rows].
    + cbn in Hrun. now injection Hrun as <-.
    + cbv beta iota. now rewrite Hrun.
  - exact Hget.
  - intros k. split.
    + intros Hin. destruct (Hkeys k Hin) as [[]|Hin']. exact Hin'.
    + intros Hin. apply dict_get_nonempty_key. rewrite Hget. now apply paths_of_key.
  - apply Hnd. constructor.
  - exact Htotal.
Qed.

Lemma get_rel_map_groups_paths_by_subject_witness :
  exists m w',
    get_rel_map entity_driver (Some ["a"]) 2 30
      (snd (upsert_triplet entity_driver "b" "likes it" "c"
              (snd (upsert_triplet entity_driver "a" "r" "b" (world empty)))))
    = (inr m, w')
    /\ dict_get "a" m = [["R"; "b"]; ["R"; "b"; "LIKES_IT"; "c"]]
    /\ total_paths m = 2.
Proof.
  destruct (get_rel_map_groups_paths_by_subject Graph graph_backend entity_driver
              "a" [] 2 30
              (snd (upsert_triplet entity_driver "b" "likes it" "c"
                      (snd (upsert_triplet entity_driver "a" "r" "b" (world empty)))))
              _ _
              [("a", ["R"; "b"]); ("a", ["R"; "b"; "LIKES_IT"; "c"])]
              eq_refl)
    as (m & Hrun & Hget & _ & _ & Htotal).
  - constructor; [|constructor; [|constructor]].
    + eexists. exists []. exists ["b"]. repeat split.
    + eexists. exists []. exists ["b"; "c"]. repeat split.
  - eexists m. eexists. split; [exact Hrun|]. split; [|exact Htotal].
    now rewrite Hget.
Defined.

(** ** The bounds of the path query on FalkorDB *)

Lemma in_firstn {A} (k : nat) (xs : list A) (x : A) :
  In x (firstn k xs) -> In x xs.
Proof.
  revert xs. induction k as [|k IH]; intros [|y ys]; cbn; try tauto.
  intros [->|Hin]; [now left|right; now apply IH].
Qed.

(** A walk has as many nodes as edges, between one and [depth] of
    them, and its nodes are nodes of the graph. *)
Lemma walks_shape (depth : nat) (g : Graph) (u : nat) (used : list nat)
  (wk : list Node * list Edge) :
  In wk (walks depth g u used) ->
  List.length (fst wk) = List.length (snd wk)
  /\ 1 <= List.length (snd wk) <= depth
  /\ Forall (fun n => In n (g_nodes g)) (fst wk).
Proof.
  revert u used wk. induction depth as [|d IH]; intros u used wk Hin; [destruct Hin|].
  cbn [walks] in Hin. apply in_flat_map in Hin. destruct Hin as (e & He & Hin).
  destruct ((e_src e =? u) && negb (existsb (Nat.eqb (e_uid e)) used)); [|destruct Hin].
  destruct (find_node g (e_dst e)) as [z|] eqn:Hz; [|destruct Hin].
  apply find_some in Hz. destruct Hz as [Hz _].
  destruct Hin as [<-|Hin].
  - cbn. split; [reflexivity|]. split; [lia|]. now constructor.
  - apply in_map_iff in Hin. destruct Hin as (wk' & <- & Hin).
    apply IH in Hin. destruct Hin as (Hlen & Hbound & Hnodes). cbn.
    split; [lia|]. split; [lia|]. now constructor.
Qed.

Lemma ids_exist (g : Graph) (ns : list Node) :
  Forall (fun n => lookup "id" (properties n) <> None) (g_nodes g) ->
  Forall (fun n => In n (g_nodes g)) ns ->
  exists ids, has_ids ns ids /\ List.length ids = List.length ns.
Proof.
  intros Hall Hns. unfold has_ids. rewrite Forall_forall in Hall.
  induction Hns as [|n ns Hn Hns IH]; [now exists []|].
  destruct IH as (ids & Hids & Hlen).
  destruct (lookup "id" (properties n)) as [v|] eqn:Hv;
    [|exfalso; now apply (Hall n Hn)].
  exists (v :: ids). cbn. now rewrite Hv, Hids, Hlen.
Qed.

Lemma Forall_exists_Forall2 {A C} (R : A -> C -> Prop) (xs : list A) :
  Forall (fun x => exists y, R x y) xs -> exists ys, Forall2 R xs ys.
Proof.
  induction 1 as [|x xs (y & Hy) _ (ys & Hys)].
  - exists []. constructor.
  - exists (y :: ys). now constructor.
Qed.

Lemma Forall2_right {A C} (R : A -> C -> Prop) (Q : C -> Prop)
  (xs : list A) (ys : list C) :
  Forall2 (fun x y => R x y /\ Q y) xs ys -> Forall2 R xs ys /\ Forall Q ys.
Proof.
  induction 1 as [|x y xs ys [HR HQ] _ [IH1 IH2]]; split; constructor; assumption.
Qed.

(** Every row of the path query on a graph whose nodes all have an id
    decodes, to a requested subject and a path of at most [depth]
    hops. *)
Lemma match_paths_rows_decode (l : string) (depth : nat) (subjs : list string)
  (g : Graph) (row : list Cell) :
  Forall (fun n => lookup "id" (properties n) <> None) (g_nodes g) ->
  In row
    (flat_map (paths_from depth g)
       (filter (fun n => String.eqb (n_label n) l
                         && existsb (opt_eqb (lookup "id" (properties n))) subjs)
          (g_nodes g))) ->
  exists kp,
    decodes row kp
    /\ (In (fst kp) subjs /\ 2 <= List.length (snd kp) <= 2 * depth).
Proof.
  intros Hall Hin. apply in_flat_map in Hin. destruct Hin as (n1 & Hn1 & Hin).
  apply filter_In in Hn1. destruct Hn1 as [Hn1 Hsel].
  apply andb_prop in Hsel. destruct Hsel as [_ Hsel].
  apply existsb_exists in Hsel. destruct Hsel as (s0 & Hs0 & Hid).
  unfold opt_eqb in Hid.
  destruct (lookup "id" (properties n1)) as [v|] eqn:Hv; [|discriminate].
  apply String.eqb_eq in Hid. subst v.
  unfold paths_from in Hin. apply in_map_iff in Hin. destruct Hin as (wk & <- & Hwk).
  apply walks_shape in Hwk. destruct Hwk as (Hlen & Hbound & Hnodes).
  destruct (ids_exist g (fst wk) Hall Hnodes) as (ids & Hids & Hilen).
  exists (s0, alternate (snd wk) ids). split.
  - exists (mkPath (n1 :: fst wk) (snd wk)), [], ids. cbn.
    split; [reflexivity|]. split; [|split; [lia|reflexivity]].
    unfold has_ids in *. cbn. now rewrite Hv, Hids.
  - cbn. split; [exact Hs0|]. rewrite alternate_length by lia. lia.
Qed.

(** X19. On a FalkorDB graph whose nodes all have an [id], with a
    depth and a limit that are not negative, [get_rel_map] returns
    without raising and leaves the store as it is; the mapping holds
    at most [limit] paths in all, every key is one of the subjects
    asked for, and every path has at least one hop and at most
    [depth] hops, two entries for each hop. *)
Theorem get_rel_map_respects_depth_and_limit
  (self : Driver) (s : string) (subjs : list string) (depth limit : Z)
  (w : World Graph) :
  (0 <= depth)%Z -> (0 <= limit)%Z ->
  all_have_id (w_store w) ->
  exists m w',
    get_rel_map self (Some (s :: subjs)) depth limit w = (inr m, w')
    /\ w_store w' = w_store w
    /\ total_paths m <= Z.to_nat limit
    /\ forall k paths path,
        In (k, paths) m -> In path paths ->
        In k (s :: subjs) /\ 2 <= List.length path <= 2 * Z.to_nat depth.
Proof.
  intros Hdepth Hlimit Hall.
  set (g := w_store w).
  set (rows := flat_map (paths_from (Z.to_nat depth) g)
                 (filter (fun n => String.eqb (n_label n) (_node_label self)
                                   && existsb (opt_eqb (lookup "id" (properties n)))
                                        (s :: subjs))
                    (g_nodes g))).
  set (data := firstn (Z.to_nat limit) rows).
  assert (Hexec : exec (MatchPaths (_node_label self) depth limit)
                    [("subjs", VList (s :: subjs))] g = (inr data, g)).
  { cbn. unfold match_paths. apply Z.ltb_ge in Hdepth, Hlimit.
    now rewrite Hdepth, Hlimit. }
  assert (Hrows : Forall (fun row => exists kp,
                              decodes row kp
                              /\ (In (fst kp) (s :: subjs)
                                  /\ 2 <= List.length (snd kp) <= 2 * Z.to_nat depth))
                    data).
  { apply Forall_forall. intros row Hin. apply in_firstn in Hin.
    now apply (match_paths_rows_decode (_node_label self) _ _ g). }
  apply Forall_exists_Forall2 in Hrows. destruct Hrows as (kps & Hrows).
  apply Forall2_right in Hrows. destruct Hrows as [Hdec Hkps].
  destruct (add_records_grouped data kps [] Hdec)
    as (m & Hrun & Hget & Htotal & Hnd & _).
  exists m. eexists. split; [|split; [|split]].
  - unfold get_rel_map, query, bind, driver_query. fold g. rewrite Hexec.
    destruct data as [|row rest].
    + cbn in Hrun. injection Hrun as <-. reflexivity.
    + cbv beta iota. rewrite Hrun. reflexivity.
  - reflexivity.
  - rewrite Htotal. cbn. subst data. apply firstn_le_length.
  - intros k paths path Hin Hpath.
    rewrite <- (dict_get_in k paths m (Hnd (NoDup_nil _)) Hin), Hget in Hpath.
    cbn in Hpath. unfold paths_of in Hpath. apply in_map_iff in Hpath.
    destruct Hpath as (kp & <- & Hkp). apply filter_In in Hkp.
    destruct Hkp as [Hkp Hk]. apply String.eqb_eq in Hk. subst k.
    rewrite Forall_forall in Hkps. now apply Hkps.
Qed.

Lemma get_rel_map_respects_depth_and_limit_witness :
  exists m w',
    get_rel_map entity_driver (Some ["a"]) 2 1
      (snd (upsert_triplet entity_driver "b" "likes it" "c"
              (snd (upsert_triplet entity_driver "a" "r" "b" (world empty)))))
    = (inr m, w')
    /\ total_paths m <= 1.
Proof.
  destruct (get_rel_map_respects_depth_and_limit entity_driver "a" [] 2 1
              (snd (upsert_triplet entity_driver "b" "likes it" "c"
                      (snd (upsert_triplet entity_driver "a" "r" "b" (world empty))))))
    as (m & w' & Hrun & _ & Htotal & _).
  - lia.
  - lia.
  - repeat constructor; discriminate.
  - exists m, w'. split; [exact Hrun|exact Htotal].
Defined.

End GraphStoreMore.
